(** * The shuffle stage of the bulk loader (cmd/bulkloader/shuffle.go)

    A shallow embedding of [shuffle.go]: the k-way merge of the map output
    ([shufflePostings] over [postingHeap]), the decoder of one map file
    ([readMapOutput]), the balancer ([mergeMapShardsIntoReduceShards]), the
    driver ([shuffler.run]) and the walk of a shard directory
    ([filenamesInTree]).  Go's [container/heap], [bytes.Compare],
    [binary.Uvarint], [filepath.Walk] and the [bufio.Reader] calls are
    transcribed from the Go standard library. *)

From Stdlib Require Import ZArith List Lia Sorting.Sorted.
From Stdlib.Strings Require Import Byte String.
From stdpp Require Import base option list strings sorting relations.

Local Open Scope Z_scope.

(** ** Results of code that may panic *)

(** [Panic] is a Go run-time panic (nil dereference, index out of range) or a
    fatal exit ([x.Check], [log.Fatal], [x.AssertTrue]).  [OutOfFuel] is no
    behaviour of the program: it marks a loop of the model that was given too
    few iterations, and the theorems below show it never comes out. *)
Inductive result (A : Type) : Type :=
| Ok (a : A)
| Panic
| OutOfFuel.
Arguments Ok {A} a.
Arguments Panic {A}.
Arguments OutOfFuel {A}.

(** Sequencing of code that may panic: [x ← m; k] stops at the first panic. *)
#[global] Instance result_ret : MRet result := fun A a => Ok a.
#[global] Instance result_bind : MBind result := fun A B f m =>
  match m with
  | Ok a => f a
  | Panic => Panic
  | OutOfFuel => OutOfFuel
  end.
#[global] Instance result_fmap : FMap result := fun A B f m =>
  match m with
  | Ok a => Ok (f a)
  | Panic => Panic
  | OutOfFuel => OutOfFuel
  end.

(** [p.f] on a pointer [p]: a nil pointer panics. *)
Definition deref {A : Type} (p : option A) : result A :=
  match p with
  | Some a => Ok a
  | None => Panic
  end.

(** [s[i]] on a slice: an index out of range panics. *)
Definition index {A : Type} (s : list A) (i : nat) : result A :=
  deref (s !! i).

(** ** Keys and records *)

(** [bytes.Compare]: unsigned byte-wise lexicographic comparison; the result
    is -1, 0 or +1, and a nil slice equals an empty one. *)
Fixpoint lexCompare (a b : list byte) : comparison :=
  match a, b with
  | [], [] => Eq
  | [], _ :: _ => Lt
  | _ :: _, [] => Gt
  | x :: a', y :: b' =>
      match N.compare (Byte.to_N x) (Byte.to_N y) with
      | Eq => lexCompare a' b'
      | Lt => Lt
      | Gt => Gt
      end
  end.

(** The [int] that [bytes.Compare] returns. *)
Definition Compare (a b : list byte) : Z :=
  match lexCompare a b with
  | Eq => 0
  | Lt => -1
  | Gt => 1
  end.

(** Modelled from the spec: [protos.MapEntry] is generated code of another
    package; a record is an opaque byte key with its payload.  The shuffle
    reads the [Key] only; the other fields travel with the record and are kept
    here as one opaque payload. *)
Record MapEntry : Type := { Key : list byte; Payload : list byte }.

(** ** The heap of stream heads *)

(** A channel as the merge sees it: the entries still to be received, after
    which it is closed.  [readMapOutput] only ever sends [new(MapEntry)], so a
    nil entry is received from a closed channel only. *)
Abbreviation chan := (list MapEntry) (only parsing).

(** [v, ok = <-ch] *)
Definition recv (c : chan) : option MapEntry * bool * chan :=
  match c with
  | [] => (None, false, [])
  | me :: c' => (Some me, true, c')
  end.

(** [heapNode]: [mapEntry] is a pointer, nil when the channel was closed. *)
Record heapNode : Type := { mapEntry : option MapEntry; ch : chan }.

(** [postingHeap.nodes] *)
Abbreviation postingHeap := (list heapNode) (only parsing).

(** [postingHeap.Less] dereferences both entries. *)
Definition Less (h : postingHeap) (i j : nat) : result bool :=
  ni ← index h i;
  ei ← deref (mapEntry ni);
  nj ← index h j;
  ej ← deref (mapEntry nj);
  Ok (Compare (Key ei) (Key ej) <? 0).

(** [postingHeap.Swap] *)
Definition Swap (h : postingHeap) (i j : nat) : result postingHeap :=
  nj ← index h j;
  ni ← index h i;
  Ok (<[j := ni]> (<[i := nj]> h)).

(** [postingHeap.Push] *)
Definition nodesPush (h : postingHeap) (x : heapNode) : postingHeap :=
  h ++ [x].

(** [postingHeap.Pop] *)
Definition nodesPop (h : postingHeap) : result (heapNode * postingHeap) :=
  elem ← index h (length h - 1);
  Ok (elem, take (length h - 1) h).

(** [container/heap.up]: the parent of [j] is [(j - 1) / 2]; Go's division
    truncates, so the parent of 0 is 0, as with the subtraction of [nat].
    The index halves at each turn, so [j] turns are enough. *)
Fixpoint up (fuel : nat) (h : postingHeap) (j : nat) : result postingHeap :=
  let i := ((j - 1) / 2)%nat in
  if (i =? j)%nat then Ok h
  else
    less ← Less h j i;
    if negb less then Ok h
    else
      match fuel with
      | O => OutOfFuel
      | S fuel' => h' ← Swap h i j; up fuel' h' i
      end.

(** [container/heap.down] on the prefix [0, n): returns the heap and whether
    the element moved ([i > i0]).  Go also leaves the loop when [2*i + 1]
    overflows [int]; the indices of a slice are far below that, and a [nat]
    does not overflow.  The index grows at each turn and stays below [n]. *)
Fixpoint down_from (fuel : nat) (h : postingHeap) (i0 i n : nat)
  : result (postingHeap * bool) :=
  let j1 := (2 * i + 1)%nat in
  if (n <=? j1)%nat then Ok (h, (i0 <? i)%nat)
  else
    let j2 := (j1 + 1)%nat in
    lessR ← (if (j2 <? n)%nat then Less h j2 j1 else Ok false);
    let j := if (lessR : bool) then j2 else j1 in
    less ← Less h j i;
    if negb less then Ok (h, (i0 <? i)%nat)
    else
      match fuel with
      | O => OutOfFuel
      | S fuel' => h' ← Swap h i j; down_from fuel' h' i0 j n
      end.

(** [down(h, i0, n)], starting at [i := i0]. *)
Definition down (h : postingHeap) (i0 n : nat) : result (postingHeap * bool) :=
  down_from n h i0 i0 n.

(** [heap.Push] *)
Definition heapPush (h : postingHeap) (x : heapNode) : result postingHeap :=
  let h' := nodesPush h x in
  up (length h' - 1) h' (length h' - 1).

(** [heap.Pop] *)
Definition heapPop (h : postingHeap) : result (heapNode * postingHeap) :=
  let n := (length h - 1)%nat in
  h1 ← Swap h 0 n;
  d ← down h1 0 n;
  nodesPop d.1.

(** [heap.Fix] *)
Definition heapFix (h : postingHeap) (i : nat) : result postingHeap :=
  d ← down h i (length h);
  if negb d.2 then up i d.1 i else Ok d.1.

(** ** The merge: [shufflePostings] *)

(** Go's [int] on the 64-bit targets of the loader. *)
Definition wrapInt (z : Z) : Z := (z + 2 ^ 63) mod 2 ^ 64 - 2 ^ 63.

(** [const batchSize = 1e4].  ([batchAlloc] is only the capacity the batch
    slice is allocated with.) *)
Definition batchSize : Z := 10000.

(** The local variables of [shufflePostings] besides the heap, and what it has
    done so far to its collaborators: [output] holds the [entries] of every
    [shuffleOutput] sent on [s.output], [counted] the arguments of every call
    of [ci.addUid], both oldest first.  (The [kv] field of a [shuffleOutput]
    is always [ci.kv].) *)
Record batcher : Type := {
  batch : list MapEntry;
  prevKey : list byte;
  plistLen : Z;
  output : list (list MapEntry);
  counted : list (list byte * Z)
}.

(** [s.output <- shuffleOutput{entries: batch, kv: ci.kv}] and a fresh batch *)
Definition send (b : batcher) : batcher :=
  {| batch := []; prevKey := prevKey b; plistLen := plistLen b;
     output := output b ++ [batch b]; counted := counted b |}.

(** [ci.addUid(prevKey, plistLen)] *)
Definition addUid (b : batcher) : batcher :=
  {| batch := batch b; prevKey := prevKey b; plistLen := plistLen b;
     output := output b; counted := counted b ++ [(prevKey b, plistLen b)] |}.

(** [plistLen = n] *)
Definition setPlistLen (n : Z) (b : batcher) : batcher :=
  {| batch := batch b; prevKey := prevKey b; plistLen := n;
     output := output b; counted := counted b |}.

(** Lines 162-169 of the loop: take the entry at the root, receive the next
    one of its channel into the root, and restore the heap. *)
Definition dequeue (ph : postingHeap)
  : result (option MapEntry * postingHeap) :=
  n0 ← index ph 0;
  let me := mapEntry n0 in
  let '(next, ok, c) := recv (ch n0) in
  let ph1 := <[0%nat := {| mapEntry := next; ch := c |}]> ph in
  ph2 ← (if (ok : bool) then heapFix ph1 0 else snd <$> heapPop ph1);
  Ok (me, ph2).

(** Lines 171-184 of the loop on the entry [e] that [me] points to, with the
    threshold [size] for [batchSize]. *)
Definition absorb (size : Z) (b : batcher) (e : MapEntry) : batcher :=
  let keyChanged := negb (Compare (prevKey b) (Key e) =? 0) in
  let b1 :=
    if keyChanged && (plistLen b >? 0) then setPlistLen 0 (addUid b) else b in
  let b2 :=
    if (Z.of_nat (length (batch b1)) >=? size)
       && negb (Compare (prevKey b1) (Key e) =? 0)
    then send b1 else b1 in
  {| batch := batch b2 ++ [e]; prevKey := Key e;
     plistLen := wrapInt (plistLen b2 + 1);
     output := output b2; counted := counted b2 |}.

(** [me.Key] panics on the nil entry of a closed channel. *)
Definition collect (size : Z) (b : batcher) (me : option MapEntry)
  : result batcher :=
  e ← deref me; Ok (absorb size b e).

(** [for len(ph.nodes) > 0 { ... }]: returns the locals at the end of the loop
    and how it ended.  A panic leaves what was sent and counted before it. *)
Fixpoint mergeLoop (size : Z) (fuel : nat) (ph : postingHeap) (b : batcher)
  : batcher * result unit :=
  match ph with
  | [] => (b, Ok tt)
  | _ :: _ =>
      match fuel with
      | O => (b, OutOfFuel)
      | S fuel' =>
          match '(me, ph') ← dequeue ph; b' ← collect size b me; Ok (ph', b') with
          | Ok (ph', b') => mergeLoop size fuel' ph' b'
          | Panic => (b, Panic)
          | OutOfFuel => (b, OutOfFuel)
          end
      end
  end.

(** Lines 186-192: the last batch and the last count. *)
Definition flush (b : batcher) : batcher :=
  let b1 := if Z.of_nat (length (batch b)) >? 0 then send b else b in
  if plistLen b1 >? 0 then addUid b1 else b1.

(** Lines 151-154: one node per channel, holding its first entry. *)
Fixpoint fill (ph : postingHeap) (chs : list chan) : result postingHeap :=
  match chs with
  | [] => Ok ph
  | c :: chs' =>
      let '(me, _, c') := recv c in
      ph' ← heapPush ph {| mapEntry := me; ch := c' |};
      fill ph' chs'
  end.

(** What [shufflePostings] did: the batches sent, the counts reported, and
    whether it returned. *)
Record shuffled : Type := {
  sent : list (list MapEntry);
  reported : list (list byte * Z);
  exit : result unit
}.

(** Lines 158-160: an empty batch, a nil [prevKey], [plistLen] zero; nothing
    sent or counted yet. *)
Definition start : batcher :=
  {| batch := []; prevKey := []; plistLen := 0; output := []; counted := [] |}.

(** Every turn of the loop receives from one channel, once more when it is
    closed: that many turns are enough. *)
Definition turns (chs : list chan) : nat :=
  (length chs + length (concat chs))%nat.

(** The body of [shufflePostings] with the threshold [size] for [batchSize].
    A panic ends the goroutine where it stands: neither the heap it filled nor
    the batch it holds is sent. *)
Definition shuffle (size : Z) (chs : list chan) : shuffled :=
  match fill [] chs with
  | Ok ph =>
      let '(b, e) := mergeLoop size (turns chs) ph start in
      let b' := match e with Ok _ => flush b | _ => b end in
      {| sent := output b'; reported := counted b'; exit := e |}
  | Panic => {| sent := []; reported := []; exit := Panic |}
  | OutOfFuel => {| sent := []; reported := []; exit := OutOfFuel |}
  end.

(** [shufflePostings(mapEntryChs, ci)] *)
Definition shufflePostings (mapEntryChs : list chan) : shuffled :=
  shuffle batchSize mapEntryChs.

(** ** The decoder: [readMapOutput] *)

(** [binary.MaxVarintLen64] *)
Definition MaxVarintLen64 : nat := 10.

(** [uint64(b)] *)
Definition byteZ (b : byte) : Z := Z.of_N (Byte.to_N b).

(** [binary.Uvarint], with [i] the index in the buffer, [x] the [uint64]
    read so far and [s] the shift: the value and the number of bytes read,
    [(0, 0)] when the buffer ends too early and [(0, -(i+1))] on overflow. *)
Fixpoint uvarintFrom (buf : list byte) (i x s : Z) : Z * Z :=
  match buf with
  | [] => (0, 0)
  | b :: buf' =>
      if byteZ b <? 0x80 then
        if (i >? 9) || ((i =? 9) && (byteZ b >? 1)) then (0, - (i + 1))
        else (Z.lor x (Z.shiftl (byteZ b) s mod 2 ^ 64), i + 1)
      else
        uvarintFrom buf' (i + 1)
          (Z.lor x (Z.shiftl (Z.land (byteZ b) 0x7f) s mod 2 ^ 64)) (s + 7)
  end.

(** [binary.Uvarint(buf)] *)
Definition Uvarint (buf : list byte) : Z * Z := uvarintFrom buf 0 0 0.

(** The [bufio.Reader] on the opened file: the bytes not yet consumed.  Reads
    of the file itself do not fail here (such an error is fatal, [x.Check]). *)
Abbreviation reader := (list byte) (only parsing).

(** [r.Peek(n)] for [n] within the buffer size [16<<10]: the next [n] bytes,
    or fewer with [io.EOF] when the file ends before. *)
Definition Peek (r : reader) (n : nat) : list byte * bool :=
  (take n r, (length r <? n)%nat).

(** What [readMapOutput] did: the entries sent on [mapEntryCh], and whether it
    closed the channel and returned ([Ok]) or died ([Panic]). *)
Record decoded : Type := { delivered : list MapEntry; closed : result unit }.

(** [mapEntryCh <- me], before what the rest of the loop does. *)
Definition deliver (me : MapEntry) (d : decoded) : decoded :=
  {| delivered := me :: delivered d; closed := closed d |}.

(** [x.Check], [x.Check2] or [log.Fatal] ends the process. *)
Definition fatal : decoded := {| delivered := []; closed := Panic |}.

(** The loop of lines 78-98.  [Unmarshal] stands for [proto.Unmarshal] into a
    fresh [MapEntry]; [None] is its error. *)
Fixpoint readLoop (Unmarshal : list byte -> option MapEntry) (fuel : nat)
    (r : reader) : decoded :=
  match fuel with
  | O => {| delivered := []; closed := OutOfFuel |}
  | S fuel' =>
      let '(buf, eof) := Peek r MaxVarintLen64 in
      if eof then {| delivered := []; closed := Ok tt |}
      else
        let '(sz, n) := Uvarint buf in
        if n <=? 0 then fatal
        else
          let r1 := drop (Z.to_nat n) r in
          if sz >=? 2 ^ 63 then fatal
          else if Z.of_nat (length r1) <? sz then fatal
          else
            match Unmarshal (take (Z.to_nat sz) r1) with
            | None => fatal
            | Some me =>
                deliver me (readLoop Unmarshal fuel' (drop (Z.to_nat sz) r1))
            end
  end.

(** Every turn consumes at least the byte of a length prefix. *)
Definition readMapOutput (Unmarshal : list byte -> option MapEntry)
    (file : list byte) : decoded :=
  readLoop Unmarshal (S (length file)) file.

(** [byte(x)] *)
Definition toByte (x : Z) : byte :=
  default "000"%byte (Byte.of_N (Z.to_N (x mod 256))).

(** [binary.PutUvarint], which the map phase writes the length prefixes
    with: ten bytes hold any [uint64]. *)
Fixpoint putUvarintFrom (fuel : nat) (x : Z) : list byte :=
  match fuel with
  | O => []
  | S fuel' =>
      if x >=? 0x80 then
        toByte (Z.lor (x mod 256) 0x80) :: putUvarintFrom fuel' (Z.shiftr x 7)
      else [toByte x]
  end.

(** [buf[:binary.PutUvarint(buf, x)]] *)
Definition PutUvarint (x : Z) : list byte := putUvarintFrom MaxVarintLen64 x.

(** A map file: each serialized entry after its length. *)
Definition frame (body : list byte) : list byte :=
  PutUvarint (Z.of_nat (length body)) ++ body.

(** The file that holds the entries serialized as [bodies], in this order. *)
Definition mapFile (bodies : list (list byte)) : list byte :=
  bodies ≫= frame.

(** ** The balancer: [mergeMapShardsIntoReduceShards] *)

(** A map shard: a directory of [TmpDir] and the size of its tree. *)
Record mapShard : Type := { shardName : string; shardSize : Z }.

(** A reduce shard [TmpDir/shard_i] and the map shards renamed into it. *)
Record reduceShard : Type := { shardIndex : nat; moved : list mapShard }.

(** The sizes of these map shards together. *)
Definition sizes (shards : list mapShard) : Z :=
  foldr (fun m acc => shardSize m + acc) 0 shards.

(** The size of the tree of a reduce shard: it starts empty. *)
Definition treeSize (r : reduceShard) : Z := sizes (moved r).

(** The two orders [sortBySize] sorts by. *)
Definition smaller {A} (size : A -> Z) : relation A :=
  fun a b => size a <= size b.
Definition larger {A} (size : A -> Z) : relation A :=
  fun a b => size b <= size a.

#[global] Instance smaller_dec {A} (size : A -> Z) a b :
  Decision (smaller size a b) := Z_le_dec (size a) (size b).
#[global] Instance larger_dec {A} (size : A -> Z) a b :
  Decision (larger size a b) := Z_le_dec (size b) (size a).

(** Modelled from the spec: [sortBySize] is defined in another file of the
    package.  It sorts directories by the size of their tree, smallest first
    when [ascending] and largest first otherwise; directories of the same
    size stay in their order. *)
Definition sortBySize {A} (size : A -> Z) (dirs : list A) (ascending : bool)
  : list A :=
  if ascending then merge_sort (smaller size) dirs
  else merge_sort (larger size) dirs.

(** [s.shardDirs()]: the directories of [TmpDir], largest first. *)
Definition shardDirs {A} (size : A -> Z) (tmpDir : list A) : list A :=
  sortBySize size tmpDir false.

(** [os.Rename(shard, filepath.Join(reduceShards[0], filepath.Base(shard)))] *)
Definition rename (shard : mapShard) (r : reduceShard) : reduceShard :=
  {| shardIndex := shardIndex r; moved := moved r ++ [shard] |}.

(** Lines 114-117: returns the reduce shards in the order the last sort left
    them; [reduceShards[0]] panics when there is none. *)
Fixpoint moveShards (mapShards : list mapShard) (reduceShards : list reduceShard)
  : list reduceShard * result unit :=
  match mapShards with
  | [] => (reduceShards, Ok tt)
  | shard :: mapShards' =>
      match sortBySize treeSize reduceShards true with
      | [] => (reduceShards, Panic)
      | r0 :: rs => moveShards mapShards' (rename shard r0 :: rs)
      end
  end.

(** [tmpDir] holds the map shards, none of them named [shard_i]. *)
Definition mergeMapShardsIntoReduceShards (ReduceShards : Z)
    (tmpDir : list mapShard) : list reduceShard * result unit :=
  let mapShards := shardDirs shardSize tmpDir in
  let reduceShards :=
    (fun i => {| shardIndex := i; moved := [] |})
      <$> seq 0 (Z.to_nat ReduceShards) in
  moveShards mapShards reduceShards.

(** ** The driver: [shuffler.run] *)

(** The fields of [s.opt] that [run] reads. *)
Record options : Type := {
  ReduceShards : Z;
  NumShufflers : Z;
  shardOutputDirs : list string
}.

(** How [run] comes to its loop: the balancer panicked, an [x.AssertTrue]
    failed (at this line of [shuffle.go]), or the loop starts on the reduce
    shards in this order. *)
Inductive started : Type :=
| Crashed
| Asserted (line : nat)
| Prepared (shardDirs : list reduceShard).

(** Lines 29-32: returns what [TmpDir] holds then, too. *)
Definition prepare (opt : options) (tmpDir : list mapShard)
  : list reduceShard * started :=
  let '(tmpDir', e) := mergeMapShardsIntoReduceShards (ReduceShards opt) tmpDir in
  match e with
  | Ok _ =>
      let dirs := shardDirs treeSize tmpDir' in
      if negb (Z.of_nat (length dirs) =? ReduceShards opt)
      then (tmpDir', Asserted 31)
      else if negb (Z.of_nat (length (shardOutputDirs opt)) =? ReduceShards opt)
      then (tmpDir', Asserted 32)
      else (tmpDir', Prepared dirs)
  | _ => (tmpDir', Crashed)
  end.

(** Lines 34-68 as a transition system.  The goroutine of a reduce shard is
    in [shufflePostings], in [ci.wait()], before [<-pending], before
    [wg.Done()], or gone. *)
Inductive worker : Type := Merging | Waiting | Releasing | Finishing | Gone.

(** The goroutine of [run]: before [pending <- struct{}{}] of turn [i] (or
    leaving the loop), between that and the [go] statement of turn [i],
    in [wg.Wait()], before [close(s.output)], returned.  [Exited]: the
    process is gone, with all of its goroutines, by an [x.Check] or
    [log.Fatal] that failed or by a panic. *)
Inductive driver : Type :=
| Acquiring (i : nat)
| Opening (i : nat)
| Joining
| Closing
| Returned
| Exited.

(** [pending] is the number of values in the channel [pending], [wg] the
    counter of the wait group, [closes] how often [s.output] was closed. *)
Record system : Type := {
  main : driver;
  tasks : list worker;
  pending : nat;
  wg : Z;
  closes : nat
}.

(** After [wg.Add(s.opt.ReduceShards)] and [make(chan struct{}, NumShufflers)] *)
Definition boot (opt : options) : system :=
  {| main := Acquiring 0; tasks := []; pending := 0;
     wg := ReduceShards opt; closes := 0 |}.

(** The process exits: no goroutine takes a further step. *)
Definition halt (s : system) : system :=
  {| main := Exited; tasks := tasks s; pending := pending s; wg := wg s;
     closes := closes s |}.

(** One step of one goroutine.  A send on [pending] needs room in the buffer,
    or a goroutine that receives at this moment ([step_handoff]).  Between
    the send and the [go] statement [run] may die ([step_check]: the
    [x.Check] of line 48, the one in [filenamesInTree]), and so may a
    goroutine in [shufflePostings] or in [ci.wait()] ([step_die]: a panic of
    [shufflePostings], a fatal error of one of its [readMapOutput]s or of the
    count indexer).  Whether a goroutine returns from [shufflePostings] or
    dies there depends on its map files, which this relation leaves open, as
    it does how long a step takes: a goroutine whose send on [s.output] blocks
    stays [Merging].  So the relation allows every run of the program, and
    says what can never happen, not what must. *)
Inductive step (opt : options) : system -> system -> Prop :=
| step_acquire i s :
    main s = Acquiring i -> Z.of_nat i < ReduceShards opt ->
    Z.of_nat (pending s) < NumShufflers opt ->
    step opt s {| main := Opening i; tasks := tasks s;
                  pending := S (pending s); wg := wg s; closes := closes s |}
| step_handoff i k s :
    main s = Acquiring i -> Z.of_nat i < ReduceShards opt ->
    pending s = 0%nat -> tasks s !! k = Some Releasing ->
    step opt s {| main := Opening i; tasks := <[k := Finishing]> (tasks s);
                  pending := pending s; wg := wg s; closes := closes s |}
| step_go i s :
    main s = Opening i ->
    step opt s {| main := Acquiring (S i); tasks := tasks s ++ [Merging];
                  pending := pending s; wg := wg s; closes := closes s |}
| step_leave i s :
    main s = Acquiring i -> ReduceShards opt <= Z.of_nat i ->
    step opt s {| main := Joining; tasks := tasks s;
                  pending := pending s; wg := wg s; closes := closes s |}
| step_join s :
    main s = Joining -> wg s = 0 ->
    step opt s {| main := Closing; tasks := tasks s;
                  pending := pending s; wg := wg s; closes := closes s |}
| step_close s :
    main s = Closing ->
    step opt s {| main := Returned; tasks := tasks s;
                  pending := pending s; wg := wg s; closes := S (closes s) |}
| step_merged k s :
    main s <> Exited -> tasks s !! k = Some Merging ->
    step opt s {| main := main s; tasks := <[k := Waiting]> (tasks s);
                  pending := pending s; wg := wg s; closes := closes s |}
| step_waited k s :
    main s <> Exited -> tasks s !! k = Some Waiting ->
    step opt s {| main := main s; tasks := <[k := Releasing]> (tasks s);
                  pending := pending s; wg := wg s; closes := closes s |}
| step_release k s :
    main s <> Exited -> tasks s !! k = Some Releasing -> (0 < pending s)%nat ->
    step opt s {| main := main s; tasks := <[k := Finishing]> (tasks s);
                  pending := pred (pending s); wg := wg s; closes := closes s |}
| step_done k s :
    main s <> Exited -> tasks s !! k = Some Finishing ->
    step opt s {| main := main s; tasks := <[k := Gone]> (tasks s);
                  pending := pending s; wg := wg s - 1; closes := closes s |}
| step_check i s :
    main s = Opening i -> step opt s (halt s)
| step_die k w s :
    main s <> Exited -> tasks s !! k = Some w -> w = Merging \/ w = Waiting ->
    step opt s (halt s).

(** The states [run] passes through: it came to its loop, and
    [make(chan struct{}, NumShufflers)] did not panic. *)
Definition runs (opt : options) (tmpDir : list mapShard) (s : system) : Prop :=
  (exists dirs, (prepare opt tmpDir).2 = Prepared dirs) /\
  0 <= NumShufflers opt /\
  rtc (step opt) (boot opt) s.

(** ** The map files of a reduce shard *)

(** A directory tree as [filepath.Walk] finds it: a file (anything that is
    not a directory), a directory with its entries in the order of
    [readDirNames], which sorts the names, or an entry that [os.Lstat] or
    [readDirNames] fails on. *)
#[warnings="-register-all"] Inductive tree : Type :=
| File
| Dir (names : list (string * tree))
| Unreadable.

(** [filepath.Walk] with the function of [filenamesInTree], which returns the
    error it is given and appends the path of what is not a directory to
    [fnames]; so [Walk] returns at the first error, and [x.Check] makes it
    fatal ([Panic]).  [Join] stands for [filepath.Join], which cleans the
    path it makes; it is of the Go library and left open here. *)
Fixpoint walk (Join : string -> string -> string) (path : string)
    (info : tree) (fnames : list string) : list string * result unit :=
  match info with
  | File => (fnames ++ [path], Ok tt)
  | Unreadable => (fnames, Panic)
  | Dir names =>
      (fix range (names : list (string * tree)) (fnames : list string) :=
         match names with
         | [] => (fnames, Ok tt)
         | (name, fileInfo) :: names' =>
             match walk Join (Join path name) fileInfo fnames with
             | (fnames', Ok _) => range names' fnames'
             | failed => failed
             end
         end) names fnames
  end.

(** [filenamesInTree(dir)] on the tree that [dir] is the root of. *)
Definition filenamesInTree (Join : string -> string -> string) (dir : string)
    (t : tree) : list string * result unit :=
  walk Join dir t [].

(** Lines 52-56: one channel for every map file, fed by a [readMapOutput] of
    its own; a map file is given by its bytes.  These are the channels
    [shufflePostings] receives from when every [readMapOutput] comes to close
    its channel. *)
Definition shuffleInputChs (Unmarshal : list byte -> option MapEntry)
    (mapFiles : list (list byte)) : list chan :=
  (fun mapFile => delivered (readMapOutput Unmarshal mapFile)) <$> mapFiles.

(** ** Notions of the statements *)

(** [[]byte(s)], and an entry with this key. *)
Definition bytes (s : string) : list byte := list_byte_of_string s.
Definition entry (s : string) : MapEntry := {| Key := bytes s; Payload := [] |}.

(** ** Notions of the proofs *)

(** [kle a b]: [bytes.Compare(a, b) <= 0]. *)
Definition kle (a b : list byte) : Prop := Compare a b <= 0.

Local Open Scope nat_scope.

Definition parent (c : nat) : nat := (c - 1) / 2.

Definition keyAt (h : postingHeap) (i : nat) : option (list byte) :=
  n ← h !! i; e ← mapEntry n; Some (Key e).

(** The nodes below [n] hold an entry. *)
Definition liveBelow (n : nat) (h : postingHeap) : Prop :=
  forall i, i < n -> is_Some (keyAt h i).

Definition swapped (i j k : nat) : nat :=
  if decide (k = i) then j else if decide (k = j) then i else k.

Definition keyOf (h : postingHeap) (i : nat) : list byte :=
  default [] (keyAt h i).

Definition le_at (h : postingHeap) (p c : nat) : Prop :=
  kle (keyOf h p) (keyOf h c).

(** The heap order below [n] but between [i] and its children, which are
    above the parent of [i]: the state of [down] at [i]. *)
Definition sinking (n i : nat) (h : postingHeap) : Prop :=
  (forall c, 0 < c < n -> parent c <> i -> le_at h (parent c) c) /\
  (forall c, 0 < c < n -> parent c = i -> 0 < i -> le_at h (parent i) c).

(** The heap order below [n] but between [j] and its parent, which is below
    the children of [j]: the state of [up] at [j]. *)
Definition swimming (n j : nat) (h : postingHeap) : Prop :=
  (forall c, 0 < c < n -> c <> j -> le_at h (parent c) c) /\
  (forall c, 0 < c < n -> parent c = j -> 0 < j -> le_at h (parent j) c).

Definition heapOrdered (n : nat) (h : postingHeap) : Prop :=
  forall c, 0 < c < n -> le_at h (parent c) c.

Definition live (h : postingHeap) : Prop := liveBelow (length h) h.
Definition isHeap (h : postingHeap) : Prop := heapOrdered (length h) h.

(** The node that replaces the root [n0]: the next entry of its channel, or
    no node when the channel is closed. *)
Definition advance (n0 : heapNode) : list heapNode :=
  match ch n0 with
  | [] => []
  | e :: c => [{| mapEntry := Some e; ch := c |}]
  end.

Local Close Scope nat_scope.

Local Open Scope nat_scope.

(** [ekle a b]: the key of [a] is at most the key of [b]. *)
Definition ekle (a b : MapEntry) : Prop := kle (Key a) (Key b).

(** The entries a node still stands for: its own and those of its channel. *)
Definition nodeEntries (n : heapNode) : list MapEntry :=
  option_list (mapEntry n) ++ ch n.

Definition contents (ph : postingHeap) : list MapEntry :=
  ph ≫= nodeEntries.

Definition nodeSorted (n : heapNode) : Prop :=
  StronglySorted ekle (nodeEntries n).

Definition dead : heapNode := {| mapEntry := None; ch := [] |}.

(** What [shuffle] leaves after it merged [recs] in this order. *)
Definition merged (size : Z) (recs : list MapEntry) : shuffled :=
  let b := flush (foldl (absorb size) start recs) in
  {| sent := output b; reported := counted b; exit := Ok tt |}.

Definition crashed : shuffled :=
  {| sent := []; reported := []; exit := Panic |}.

Local Close Scope nat_scope.

(** Whether [absorb] sends the batch before it takes [e], and whether it
    reports the count of the previous key. *)
Definition cuts (size : Z) (b : batcher) (e : MapEntry) : bool :=
  (Z.of_nat (length (batch b)) >=? size)
  && negb (Compare (prevKey b) (Key e) =? 0).

Definition reports (b : batcher) (e : MapEntry) : bool :=
  negb (Compare (prevKey b) (Key e) =? 0) && (plistLen b >? 0).

(** The key of the last entry, empty when there is none: [prevKey]. *)
Definition lastKey (recs : list MapEntry) : list byte :=
  from_option Key [] (last recs).

(** The last key of a batch differs from the first key of the next. *)
Definition boundary (x y : list MapEntry) : Prop :=
  exists a b, last x = Some a /\ head y = Some b /\ Key a <> Key b.

Definition adjacent {A} (R : A -> A -> Prop) (l : list A) : Prop :=
  forall i x y, l !! i = Some x -> l !! S i = Some y -> R x y.

(** The state of the batcher after it took [recs]. *)
Record batched (size : Z) (recs : list MapEntry) (b : batcher) : Prop := {
  batched_all : concat (output b) ++ batch b = recs;
  batched_key : prevKey b = lastKey recs;
  batched_nil : batch b = [] -> recs = [];
  batched_size : Forall (fun x => size <= Z.of_nat (length x)) (output b);
  batched_cut : adjacent boundary (output b ++ [batch b])
}.

(** What [sent] satisfies after [recs] were merged. *)
Record batches (size : Z) (recs : list MapEntry) (out : list (list MapEntry))
  : Prop := {
  batches_all : concat out = recs;
  batches_ne : Forall (fun x => x <> []) out;
  batches_cut : adjacent boundary out;
  batches_size : forall i x, out !! i = Some x ->
    (S i < length out)%nat -> size <= Z.of_nat (length x)
}.

(** The number of entries of [recs] with key [k]. *)
Fixpoint keyCount (k : list byte) (recs : list MapEntry) : Z :=
  match recs with
  | [] => 0
  | r :: recs' => (if Compare (Key r) k =? 0 then 1 else 0) + keyCount k recs'
  end.

(** [klt a b]: [a] is strictly below [b]. *)
Definition klt (a b : list byte) : Prop := kle a b /\ a <> b.

(** The counts after the batcher took the sorted [recs]. *)
Record counting (recs : list MapEntry) (b : batcher) : Prop := {
  counting_len : plistLen b = keyCount (prevKey b) recs;
  counting_done : Forall (fun p => klt p.1 (prevKey b) /\
                           p.2 = keyCount p.1 recs /\ 0 < p.2) (counted b);
  counting_sorted : StronglySorted klt (counted b).*1;
  counting_all : forall r, r ∈ recs ->
                   Key r = prevKey b \/ Key r ∈ (counted b).*1
}.

(** What [reported] satisfies after the sorted [recs] were merged: the keys
    ascend strictly, each with the number of its entries, and none is left
    out. *)
Record counts (recs : list MapEntry) (rep : list (list byte * Z)) : Prop := {
  counts_sorted : StronglySorted klt rep.*1;
  counts_exact : Forall (fun p => p.2 = keyCount p.1 recs /\ 0 < p.2) rep;
  counts_all : forall r, r ∈ recs -> Key r ∈ rep.*1
}.

(** The bodies of a map file that [readMapOutput] comes to read: it stops at
    the first one with fewer than ten bytes from its length prefix to the end
    of the file. *)
Fixpoint readable (bodies : list (list byte)) : list (list byte) :=
  match bodies with
  | [] => []
  | body :: bodies' =>
      if (length (mapFile bodies) <? MaxVarintLen64)%nat then []
      else body :: readable bodies'
  end.

(** The facts on one byte, checked on the 256 of them. *)
Definition byteOk (n : nat) : bool :=
  let y := Z.of_nat n in
  (byteZ (toByte y) =? y) && (128 <=? Z.lor y 128) && (Z.lor y 128 <? 256)
  && (Z.land (Z.lor y 128) 127 =? y mod 128).

(** The size of the largest map shard. *)
Definition largest (shards : list mapShard) : Z :=
  foldr (fun m acc => Z.max (shardSize m) acc) 0 shards.

(** What the reduce shards hold together. *)
Definition holdings (rs : list reduceShard) : list mapShard :=
  rs ≫= moved.

Definition emptyShards (n : nat) : list reduceShard :=
  (fun i => {| shardIndex := i; moved := [] |}) <$> seq 0 n.

(** A goroutine that holds a place among the shufflers: it sent on [pending]
    (or [run] did for it) and has not received yet. *)
Definition holding (w : worker) : nat :=
  match w with
  | Merging | Waiting | Releasing => 1
  | Finishing | Gone => 0
  end.


Definition gone (w : worker) : nat :=
  match w with Gone => 1 | _ => 0 end.

Definition tally (f : worker -> nat) (ws : list worker) : nat :=
  sum_list_with f ws.

(** [run] holds the place of the goroutine it is about to start. *)
Definition opening (d : driver) : nat :=
  match d with Opening _ => 1 | _ => 0 end.

(** How far [run] is, against the goroutines it started. *)
Definition progress (opt : options) (s : system) : Prop :=
  match main s with
  | Acquiring i =>
      length (tasks s) = i /\ Z.of_nat i <= ReduceShards opt
  | Opening i =>
      length (tasks s) = i /\ Z.of_nat i < ReduceShards opt
  | Joining => Z.of_nat (length (tasks s)) = ReduceShards opt
  | Closing | Returned =>
      Z.of_nat (length (tasks s)) = ReduceShards opt /\
      Forall (fun w => w = Gone) (tasks s)
  | Exited => Z.of_nat (length (tasks s)) <= ReduceShards opt
  end.

(** What holds in every state of [run]; once the process has exited, the
    place [run] held for a goroutine it had not started may be left in
    [pending]. *)
Record sound (opt : options) (s : system) : Prop := {
  sound_pending :
    match main s with
    | Exited => (tally holding (tasks s) <= pending s)%nat
    | _ => pending s = (tally holding (tasks s) + opening (main s))%nat
    end;
  sound_bound : Z.of_nat (pending s) <= NumShufflers opt;
  sound_wg : wg s = ReduceShards opt - Z.of_nat (tally gone (tasks s));
  sound_progress : progress opt s;
  sound_closes : closes s = match main s with Returned => 1%nat | _ => 0%nat end
}.

(** A stream, or the merged output, is in order when no entry is followed by
    one with a smaller key. *)
Definition nondecreasing (l : list MapEntry) : Prop :=
  adjacent (fun a b => Compare (Key a) (Key b) <= 0) l.

Definition threeStreams : list (list MapEntry) :=
  [[entry "a"; entry "c"]; [entry "b"; entry "c"]; [entry "a"]].

Definition fourShards : list mapShard :=
  [ {| shardName := "000"; shardSize := 10 |};
    {| shardName := "001"; shardSize := 9 |};
    {| shardName := "002"; shardSize := 5 |};
    {| shardName := "003"; shardSize := 5 |} ].

Definition oneShard : list mapShard :=
  [ {| shardName := "000"; shardSize := 10 |} ].

Definition noOutputDir : options :=
  {| ReduceShards := 1; NumShufflers := 1; shardOutputDirs := [] |}.

Definition oneShuffler : options :=
  {| ReduceShards := 1; NumShufflers := 1; shardOutputDirs := ["out/0"%string] |}.

Definition oneMerging : system :=
  {| main := Acquiring 1; tasks := [Merging]; pending := 1; wg := 1;
     closes := 0 |}.

(** A configuration without shufflers. *)
Definition noShuffler : options :=
  {| ReduceShards := 1; NumShufflers := 0; shardOutputDirs := ["out/0"%string] |}.



(** The sum of the counts given to [ci.addUid]. *)
Definition total (rep : list (list byte * Z)) : Z :=
  foldr (fun p acc => p.2 + acc) 0 rep.

(** From its [size]-th entry on, a batch goes on with the key it has. *)
Definition tight (size : Z) (x : list MapEntry) : Prop :=
  forall i a b, x !! i = Some a -> x !! S i = Some b ->
    size <= Z.of_nat (S i) -> Key a = Key b.

(** A sample of [proto.Unmarshal] for the examples: the bytes are the key. *)
Definition keyOnly (body : list byte) : option MapEntry :=
  Some {| Key := body; Payload := [] |}.

(** No two reduce shards differ by more than [M]. *)
Definition spread (M : Z) (rs : list reduceShard) : Prop :=
  forall r1 r2, r1 ∈ rs -> r2 ∈ rs -> treeSize r1 <= treeSize r2 + M.



(** [run] before [badger.NewKV] for the only reduce shard. *)
Definition oneOpening : system :=
  {| main := Opening 0; tasks := []; pending := 1; wg := 1; closes := 0 |}.

(** Whether [os.Lstat] and [readDirNames] succeed all over the tree. *)
Fixpoint allReadable (t : tree) : bool :=
  match t with
  | File => true
  | Unreadable => false
  | Dir names =>
      (fix all (names : list (string * tree)) : bool :=
         match names with
         | [] => true
         | (_, t') :: names' => allReadable t' && all names'
         end) names
  end.

(** The number of entries of the tree that are not directories. *)
Fixpoint files (t : tree) : nat :=
  match t with
  | File => 1%nat
  | Unreadable => 0%nat
  | Dir names =>
      (fix sum (names : list (string * tree)) : nat :=
         match names with
         | [] => 0%nat
         | (_, t') :: names' => (files t' + sum names')%nat
         end) names
  end.

(** What [walk] does, for every list of names found before. *)
Definition walked (Join : string -> string -> string) (path : string)
    (t : tree) : Prop :=
  forall fnames, exists found,
    (walk Join path t fnames).1 = fnames ++ found /\
    ((walk Join path t fnames).2 = Ok tt <-> allReadable t = true) /\
    ((walk Join path t fnames).2 = Ok tt -> length found = files t).

(** * The order of keys *)

Lemma byte_to_N_inj (x y : byte) : Byte.to_N x = Byte.to_N y -> x = y.
Proof.
  intros E. apply (f_equal Byte.of_N) in E.
  rewrite !Byte.of_to_N in E. congruence.
Qed.

Lemma lexCompare_refl (a : list byte) : lexCompare a a = Eq.
Proof. induction a as [|x a IH]; simpl; [done|]. by rewrite N.compare_refl. Qed.

Lemma lexCompare_Eq (a b : list byte) : lexCompare a b = Eq -> a = b.
Proof.
  revert b. induction a as [|x a IH]; intros [|y b]; simpl; try done.
  destruct (N.compare_spec (Byte.to_N x) (Byte.to_N y)) as [E| |]; try done.
  intros H. f_equal; [by apply byte_to_N_inj | by apply IH].
Qed.

Lemma lexCompare_opp (a b : list byte) :
  lexCompare b a = CompOpp (lexCompare a b).
Proof.
  revert b. induction a as [|x a IH]; intros [|y b]; simpl; try done.
  rewrite (N.compare_antisym (Byte.to_N x) (Byte.to_N y)).
  destruct (Byte.to_N x ?= Byte.to_N y)%N; simpl; auto.
Qed.

Lemma lexCompare_trans (a b c : list byte) :
  lexCompare a b <> Gt -> lexCompare b c <> Gt -> lexCompare a c <> Gt.
Proof.
  revert b c. induction a as [|x a IH]; intros [|y b] [|z c]; simpl; try done.
  destruct (N.compare_spec (Byte.to_N x) (Byte.to_N y)) as [E|L|G];
    destruct (N.compare_spec (Byte.to_N y) (Byte.to_N z)) as [E'|L'|G'];
    try done; intros H1 H2.
  - rewrite E, E', N.compare_refl. eauto.
  - rewrite E. by destruct (N.compare_spec (Byte.to_N y) (Byte.to_N z)); try lia.
  - rewrite <- E'. by destruct (N.compare_spec (Byte.to_N x) (Byte.to_N y)); try lia.
  - by destruct (N.compare_spec (Byte.to_N x) (Byte.to_N z)); try lia.
Qed.

Lemma kle_lex (a b : list byte) : kle a b <-> lexCompare a b <> Gt.
Proof. unfold kle, Compare. destruct (lexCompare a b); split; (done || lia). Qed.

Lemma kle_refl (a : list byte) : kle a a.
Proof. apply kle_lex. by rewrite lexCompare_refl. Qed.

Lemma kle_trans (a b c : list byte) : kle a b -> kle b c -> kle a c.
Proof. rewrite !kle_lex. apply lexCompare_trans. Qed.

Lemma kle_total (a b : list byte) : kle a b \/ kle b a.
Proof.
  rewrite !kle_lex, (lexCompare_opp a b).
  destruct (lexCompare a b); simpl; auto.
Qed.

Lemma kle_antisym (a b : list byte) : kle a b -> kle b a -> a = b.
Proof.
  rewrite !kle_lex, (lexCompare_opp a b). intros H1 H2.
  apply lexCompare_Eq. destruct (lexCompare a b); simpl in *; congruence.
Qed.

Lemma Compare_eq (a b : list byte) : Compare a b = 0 <-> a = b.
Proof.
  unfold Compare. split.
  - intros H. apply lexCompare_Eq. destruct (lexCompare a b); congruence.
  - intros ->. by rewrite lexCompare_refl.
Qed.

Lemma Compare_not_lt (a b : list byte) : (Compare a b <? 0) = false -> kle b a.
Proof.
  intros H. apply kle_lex. rewrite lexCompare_opp.
  unfold Compare in H. destruct (lexCompare a b); simpl in *; done.
Qed.

Lemma Compare_lt (a b : list byte) : (Compare a b <? 0) = true -> kle a b.
Proof. unfold kle. lia. Qed.

#[global] Instance byte_eq_dec : EqDecision byte.
Proof.
  intros x y. destruct (N.eq_dec (Byte.to_N x) (Byte.to_N y)) as [E|NE].
  - left. by apply byte_to_N_inj.
  - right. congruence.
Defined.

#[global] Instance MapEntry_eq_dec : EqDecision MapEntry.
Proof. solve_decision. Defined.

Local Open Scope nat_scope.

(** * The heap *)

Lemma parent_lt c : 0 < c -> parent c < c.
Proof. unfold parent. intros. apply Nat.Div0.div_lt_upper_bound. lia. Qed.

Lemma parent_child c i : 0 < c -> parent c = i <-> (c = 2 * i + 1 \/ c = 2 * i + 2).
Proof.
  unfold parent. intros Hc. split.
  - intros <-. pose proof (Nat.div_mod_eq (c - 1) 2) as E.
    pose proof (Nat.mod_upper_bound (c - 1) 2). lia.
  - intros [-> | ->].
    + replace (2 * i + 1 - 1) with (i * 2) by lia. by rewrite Nat.div_mul.
    + replace (2 * i + 2 - 1) with (1 + i * 2) by lia.
      rewrite Nat.div_add by lia. done.
Qed.

Lemma keyAt_lt h i a : keyAt h i = Some a -> i < length h.
Proof.
  unfold keyAt. intros H. apply lookup_lt_is_Some.
  destruct (h !! i); [by eexists | by simpl in H].
Qed.

Lemma liveBelow_length n h : liveBelow n h -> n <= length h.
Proof.
  intros L. destruct n as [|n]; [lia|].
  destruct (L n) as [a Ha]; [lia|]. apply keyAt_lt in Ha. lia.
Qed.

Lemma Less_keys h i j a b :
  keyAt h i = Some a -> keyAt h j = Some b ->
  Less h i j = Ok (Compare a b <? 0)%Z.
Proof.
  unfold keyAt, Less, index. intros Hi Hj.
  destruct (h !! i) as [ni|]; simpl in *; [|done].
  destruct (mapEntry ni) as [ei|]; simpl in *; [|done].
  destruct (h !! j) as [nj|]; simpl in *; [|done].
  destruct (mapEntry nj) as [ej|]; simpl in *; [|done].
  congruence.
Qed.

(** ** Swapping two nodes *)

Lemma Swap_ok h i j :
  i < length h -> j < length h ->
  exists h', Swap h i j = Ok h' /\ length h' = length h /\
    forall k, h' !! k = h !! swapped i j k.
Proof.
  intros Hi Hj. unfold Swap, index.
  destruct (lookup_lt_is_Some_2 h i Hi) as [ni Eni].
  destruct (lookup_lt_is_Some_2 h j Hj) as [nj Enj].
  rewrite Eni, Enj. simpl. eexists. split; [done|]. split.
  - by rewrite !length_insert.
  - intros k. unfold swapped.
    destruct (decide (k = j)) as [->|Hkj].
    + rewrite list_lookup_insert_eq by (by rewrite length_insert).
      destruct (decide (j = i)) as [->|]; congruence.
    + rewrite list_lookup_insert_ne by done.
      destruct (decide (k = i)) as [->|Hki].
      * by rewrite list_lookup_insert_eq.
      * by rewrite list_lookup_insert_ne.
Qed.

Lemma insert_swap_perm {A} (l : list A) j x y :
  l !! j = Some y -> y :: <[j := x]> l ≡ₚ x :: l.
Proof.
  revert j. induction l as [|a l IH]; intros [|j]; simpl; try done.
  - intros [= ->]. apply Permutation_swap.
  - intros H. rewrite (Permutation_swap a y), (IH _ H).
    apply Permutation_swap.
Qed.

Lemma swap_perm {A} (l : list A) i j x y :
  l !! i = Some x -> l !! j = Some y -> <[j := x]> (<[i := y]> l) ≡ₚ l.
Proof.
  revert i j. induction l as [|a l IH]; intros [|i] [|j]; simpl; try done.
  - intros [= ->] [= ->]. done.
  - intros [= ->] H. by apply insert_swap_perm.
  - intros H [= ->]. by apply insert_swap_perm.
  - intros Hi Hj. f_equiv. by apply IH.
Qed.

Lemma Swap_perm h i j h' n :
  Swap h i j = Ok h' -> i < n -> j < n ->
  take n h' ≡ₚ take n h /\ drop n h' = drop n h.
Proof.
  unfold Swap, index. intros H Hi Hj.
  destruct (h !! j) as [nj|] eqn:Ej; simpl in H; [|done].
  destruct (h !! i) as [ni|] eqn:Ei; simpl in H; [|done].
  injection H as <-. split.
  - rewrite !take_insert_lt by done. apply swap_perm; by rewrite lookup_take_lt.
  - by rewrite !drop_insert_lt.
Qed.

Lemma keyAt_lookup h h' k k' : h' !! k = h !! k' -> keyAt h' k = keyAt h k'.
Proof. unfold keyAt. by intros ->. Qed.

Lemma Less_live n h i j :
  liveBelow n h -> i < n -> j < n ->
  Less h i j = Ok (Compare (keyOf h i) (keyOf h j) <? 0)%Z.
Proof.
  intros L Hi Hj. destruct (L i Hi) as [a Ha], (L j Hj) as [b Hb].
  unfold keyOf. rewrite Ha, Hb. simpl. by apply Less_keys.
Qed.

Lemma Swap_live n h i j :
  liveBelow n h -> i < n -> j < n ->
  exists h', Swap h i j = Ok h' /\ length h' = length h /\ liveBelow n h' /\
    (forall k, keyOf h' k = keyOf h (swapped i j k)) /\
    take n h' ≡ₚ take n h /\ drop n h' = drop n h.
Proof.
  intros L Hi Hj. pose proof (liveBelow_length _ _ L) as Hn.
  destruct (Swap_ok h i j) as (h' & E & Hlen & Hk); [lia..|].
  exists h'. split; [done|]. split; [done|].
  assert (forall k, keyAt h' k = keyAt h (swapped i j k)) as HK.
  { intros k. apply keyAt_lookup, Hk. }
  split; [|split].
  - intros k Hkn. rewrite HK. apply L. unfold swapped. repeat case_decide; lia.
  - intros k. unfold keyOf. by rewrite HK.
  - by apply (Swap_perm h i j).
Qed.

Ltac swap_cases :=
  unfold swapped; repeat case_decide; subst; try lia.

Lemma down_from_eq fuel h i0 i n :
  down_from fuel h i0 i n =
  let j1 := 2 * i + 1 in
  if n <=? j1 then Ok (h, i0 <? i)
  else
    let j2 := j1 + 1 in
    lessR ← (if j2 <? n then Less h j2 j1 else Ok false);
    let j := if (lessR : bool) then j2 else j1 in
    less ← Less h j i;
    if negb less then Ok (h, i0 <? i)
    else
      match fuel with
      | O => OutOfFuel
      | S fuel' => h' ← Swap h i j; down_from fuel' h' i0 j n
      end.
Proof. by destruct fuel. Qed.

Lemma up_eq fuel h j :
  up fuel h j =
  let i := (j - 1) / 2 in
  if i =? j then Ok h
  else
    less ← Less h j i;
    if negb less then Ok h
    else
      match fuel with
      | O => OutOfFuel
      | S fuel' => h' ← Swap h i j; up fuel' h' i
      end.
Proof. by destruct fuel. Qed.

Lemma down_from_spec fuel : forall h i0 i n,
  n <= fuel + i -> liveBelow n h -> sinking n i h ->
  exists h' m, down_from fuel h i0 i n = Ok (h', m) /\
    length h' = length h /\ liveBelow n h' /\ heapOrdered n h' /\
    take n h' ≡ₚ take n h /\ drop n h' = drop n h.
Proof.
  induction fuel as [|fuel IH]; intros h i0 i n Hfuel L [S1 S2].
  - (* no fuel left: [i] is at or past [n] *)
    rewrite down_from_eq. cbv zeta.
    destruct (Nat.leb_spec n (2 * i + 1)) as [_|?]; [|lia].
    exists h, (i0 <? i). repeat split; try done.
    intros c Hc. apply S1; [done|]. pose proof (parent_lt c). lia.
  - rewrite down_from_eq. cbv zeta.
    destruct (Nat.leb_spec n (2 * i + 1)) as [Hn|Hn].
    { exists h, (i0 <? i). repeat split; try done.
      intros c Hc. apply S1; [done|]. intros E.
      apply parent_child in E; lia. }
    set (j1 := 2 * i + 1) in *. set (j2 := j1 + 1).
    set (lessR := if j2 <? n then Less h j2 j1 else Ok false).
    assert (exists r : bool, lessR = Ok r /\
              let j := if r then j2 else j1 in
              j < n /\ parent j = i /\ le_at h j j1 /\ (j2 < n -> le_at h j j2))
      as (r & -> & Hj).
    { unfold lessR. destruct (Nat.ltb_spec j2 n) as [H2|H2].
      - rewrite (Less_live n) by (done || lia).
        eexists. split; [done|].
        destruct (Compare (keyOf h j2) (keyOf h j1) <? 0)%Z eqn:C; simpl.
        + split; [done|]. split; [apply parent_child; lia|].
          split; [by apply Compare_lt | intros; apply kle_refl].
        + split; [lia|]. split; [apply parent_child; lia|].
          split; [apply kle_refl | intros; by apply Compare_not_lt].
      - exists false. split; [done|]. simpl.
        split; [lia|]. split; [apply parent_child; lia|].
        split; [apply kle_refl | lia]. }
    simpl. set (j := if r then j2 else j1) in *.
    destruct Hj as (Hjn & Hpj & Hj1 & Hj2).
    assert (i < j) as Hij by (unfold j, j2, j1; destruct r; lia).
    clearbody j. subst j2 j1.
    rewrite (Less_live n) by (done || lia). simpl.
    destruct (Compare (keyOf h j) (keyOf h i) <? 0)%Z eqn:C; simpl.
    + (* the smaller child goes up *)
      destruct (Swap_live n h i j L) as (h' & -> & Hlen & L' & HK & Hp & Hd);
        [lia..|]. simpl.
      destruct (IH h' i0 j n) as (h'' & m & -> & Hlen' & L'' & HO & Hp' & Hd');
        [lia | done | | ].
      * split.
        -- intros c Hc Hpc. unfold le_at. rewrite !HK.
           destruct (decide (c = j)) as [->|Hcj].
           { rewrite Hpj. swap_cases. by apply Compare_lt. }
           destruct (decide (parent c = i)) as [Hpi|Hpi].
           { rewrite Hpi. apply parent_child in Hpi; [|lia].
             assert (c = 2 * i + 1 \/ c = 2 * i + 1 + 1) as [-> | ->] by lia;
               swap_cases; (apply Hj1 || apply Hj2); lia. }
           destruct (decide (c = i)) as [->|Hci].
           { assert (parent i < i) by (apply parent_lt; lia).
             swap_cases. apply (S2 j); lia. }
           swap_cases. apply S1; [lia|done].
        -- intros c Hc Hpc Hj0. unfold le_at. rewrite !HK, Hpj.
           assert (j < c) by (pose proof (parent_lt c); lia).
           unfold swapped; repeat case_decide; try lia.
           rewrite <- Hpc. apply S1; lia.
      * exists h'', m. repeat split; try done; try congruence.
        by rewrite Hp'.
    + (* the element stays *)
      exists h, (i0 <? i). repeat split; try done.
      intros c Hc. destruct (decide (parent c = i)) as [Hpi|Hpi].
      * rewrite Hpi. apply parent_child in Hpi; [|lia].
        apply Compare_not_lt in C. unfold le_at.
        assert (c = 2 * i + 1 \/ c = 2 * i + 1 + 1) as [-> | ->] by lia.
        -- eapply kle_trans; [exact C | apply Hj1].
        -- eapply kle_trans; [exact C | apply Hj2; lia].
      * by apply S1.
Qed.

Lemma up_spec fuel : forall h j n,
  j <= fuel -> j < n -> liveBelow n h -> swimming n j h ->
  exists h', up fuel h j = Ok h' /\
    length h' = length h /\ liveBelow n h' /\ heapOrdered n h' /\
    take n h' ≡ₚ take n h /\ drop n h' = drop n h.
Proof.
  induction fuel as [|fuel IH]; intros h j n Hfuel Hjn L [S1 S2];
    rewrite up_eq; cbv zeta; fold (parent j).
  - assert (j = 0) as -> by lia. change (parent 0) with 0. simpl.
    exists h. repeat split; try done. intros c Hc. apply S1; lia.
  - destruct (Nat.eqb_spec (parent j) j) as [E|E].
    { exists h. repeat split; try done. intros c Hc. apply S1; [done|].
      pose proof (parent_lt j). lia. }
    assert (0 < j) as Hj0 by (destruct j; [done | lia]).
    pose proof (parent_lt j Hj0) as Hpj.
    rewrite (Less_live n) by (done || lia). simpl.
    destruct (Compare (keyOf h j) (keyOf h (parent j)) <? 0)%Z eqn:C; simpl.
    + destruct (Swap_live n h (parent j) j L)
        as (h' & -> & Hlen & L' & HK & Hp & Hd); [lia..|]. simpl.
      destruct (IH h' (parent j) n)
        as (h'' & -> & Hlen' & L'' & HO & Hp' & Hd'); [lia | lia | done | | ].
      * remember (parent j) as i eqn:Hi. split.
        -- intros c Hc Hci. unfold le_at. rewrite !HK.
           destruct (decide (c = j)) as [->|Hcj].
           { rewrite <- Hi. swap_cases. by apply Compare_lt. }
           pose proof (parent_lt c).
           destruct (decide (parent c = i)) as [Hpi|Hpi].
           { rewrite Hpi. unfold swapped; repeat case_decide; try lia.
             apply kle_trans with (keyOf h i); [by apply Compare_lt|].
             rewrite <- Hpi. apply S1; lia. }
           destruct (decide (parent c = j)) as [Hpcj|Hpcj].
           { rewrite Hpcj. unfold swapped; repeat case_decide; try lia.
             apply S2; lia. }
           unfold swapped; repeat case_decide; try lia. apply S1; lia.
        -- intros c Hc Hpc Hi0. unfold le_at. rewrite !HK.
           pose proof (parent_lt i Hi0). pose proof (parent_lt c).
           assert (le_at h (parent i) i) as Hpi by (apply S1; lia).
           destruct (decide (c = j)) as [->|Hcj].
           { unfold swapped; repeat case_decide; try lia. done. }
           unfold swapped; repeat case_decide; try lia.
           apply kle_trans with (keyOf h i); [done|].
           rewrite <- Hpc. apply S1; lia.
      * exists h''. repeat split; try done; try congruence. by rewrite Hp'.
    + exists h. repeat split; try done. intros c Hc.
      destruct (decide (c = j)) as [->|Hcj]; [|by apply S1].
      by apply Compare_not_lt.
Qed.

(** ** The whole heap *)

Lemma live_Forall h : live h <-> Forall (fun n => is_Some (mapEntry n)) h.
Proof.
  rewrite Forall_lookup. unfold live, liveBelow, keyAt. split.
  - intros L i n Hi. destruct (L i) as [a Ha]; [by eapply lookup_lt_Some|].
    rewrite Hi in Ha. simpl in Ha. destruct (mapEntry n); [done|done].
  - intros F i Hi. destruct (lookup_lt_is_Some_2 h i Hi) as [n Hn].
    rewrite Hn. simpl. destruct (F i n Hn) as [e ->]. by eexists.
Qed.

Lemma root_least n h c : heapOrdered n h -> c < n -> le_at h 0 c.
Proof.
  intros HO. induction (lt_wf c) as [c _ IH]. intros Hc.
  destruct (decide (c = 0)) as [->|]; [apply kle_refl|].
  pose proof (parent_lt c). unfold le_at.
  apply kle_trans with (keyOf h (parent c)); [apply IH; lia | apply HO; lia].
Qed.

Lemma keyAt_app_l h x k : k < length h -> keyAt (h ++ [x]) k = keyAt h k.
Proof. intros H. unfold keyAt. by rewrite lookup_app_l. Qed.

Lemma heapPush_spec h x :
  live h -> isHeap h -> is_Some (mapEntry x) ->
  exists h', heapPush h x = Ok h' /\ h' ≡ₚ x :: h /\ live h' /\ isHeap h'.
Proof.
  intros L HO [e He]. unfold heapPush, nodesPush.
  rewrite length_app. simpl.
  replace (length h + 1 - 1) with (length h) by lia.
  destruct (up_spec (length h) (h ++ [x]) (length h) (S (length h)))
    as (h' & -> & Hlen & L' & HO' & Hp & _); [lia | lia | | | ].
  - intros i Hi. destruct (decide (i = length h)) as [->|].
    + unfold keyAt. rewrite lookup_app_r, Nat.sub_diag by lia. simpl.
      rewrite He. by eexists.
    + rewrite keyAt_app_l by lia. apply L. lia.
  - split.
    + intros c Hc Hcl. pose proof (parent_lt c). unfold le_at, keyOf.
      rewrite !keyAt_app_l by lia. apply HO. lia.
    + intros c Hc Hpc. pose proof (parent_lt c). lia.
  - rewrite length_app in Hlen. simpl in Hlen.
    exists h'. split; [done|]. unfold live, isHeap.
    replace (length h') with (S (length h)) by lia.
    repeat split; try done.
    rewrite <- (take_ge h' (S (length h))) by lia. rewrite Hp.
    rewrite take_ge by (rewrite length_app; simpl; lia).
    by rewrite Permutation_app_comm.
Qed.

Lemma keyAt_cons_S n0 n1 rest k :
  keyAt (n1 :: rest) (S k) = keyAt (n0 :: rest) (S k).
Proof. done. Qed.

Lemma keyOf_cons_S n0 n1 rest k :
  keyOf (n1 :: rest) (S k) = keyOf (n0 :: rest) (S k).
Proof. done. Qed.

Lemma sinking_new_root n n0 n1 rest :
  heapOrdered n (n0 :: rest) -> sinking n 0 (n1 :: rest).
Proof.
  intros HO. split; [|lia]. intros c Hc Hp. unfold le_at.
  destruct c as [|c]; [lia|]. destruct (parent (S c)) as [|p] eqn:E; [done|].
  rewrite (keyOf_cons_S n0 n1), (keyOf_cons_S n0 n1 _ c), <- E.
  apply HO. lia.
Qed.

Lemma heapOrdered_le n m h : heapOrdered n h -> m <= n -> heapOrdered m h.
Proof. intros HO Hm c Hc. apply HO. lia. Qed.

Lemma up_root h : up 0 h 0 = Ok h.
Proof. done. Qed.

Lemma heapFix_root n1 rest n0 :
  live (n1 :: rest) -> isHeap (n0 :: rest) ->
  exists h', heapFix (n1 :: rest) 0 = Ok h' /\ h' ≡ₚ n1 :: rest /\
    live h' /\ isHeap h'.
Proof.
  intros L HO. unfold heapFix, down.
  destruct (down_from_spec (length (n1 :: rest)) (n1 :: rest) 0 0
              (length (n1 :: rest)))
    as (h' & m & -> & Hlen & L' & HO' & Hp & _); [lia | done | | ].
  { by apply (sinking_new_root _ n0). }
  simpl. exists h'. split.
  { destruct m; simpl; [done | apply up_root]. }
  unfold live, isHeap. rewrite Hlen. repeat split; try done.
  rewrite <- (take_ge h' (length (n1 :: rest))) by lia.
  rewrite Hp. by rewrite take_ge.
Qed.

Lemma keyAt_take n h k : k < n -> keyAt (take n h) k = keyAt h k.
Proof. intros H. unfold keyAt. by rewrite lookup_take_lt. Qed.

Lemma heapPop_root n1 rest n0 :
  live (n0 :: rest) -> isHeap (n0 :: rest) ->
  exists x h', heapPop (n1 :: rest) = Ok (x, h') /\ h' ≡ₚ rest /\
    live h' /\ isHeap h'.
Proof.
  intros L HO. unfold heapPop.
  set (n := length (n1 :: rest) - 1).
  assert (n = length rest) as Hn by (unfold n; simpl; lia).
  destruct (Swap_ok (n1 :: rest) 0 n) as (h1 & E1 & Hlen1 & Hk1);
    [simpl; lia..|].
  rewrite E1. simpl.
  assert (forall k, keyAt h1 k = keyAt (n1 :: rest) (swapped 0 n k)) as HK1.
  { intros k. apply keyAt_lookup, Hk1. }
  assert (liveBelow n h1) as L1.
  { intros k Hk. rewrite HK1.
    unfold swapped. destruct (decide (k = 0)) as [->|Hk0].
    - destruct n as [|n']; [lia|]. rewrite (keyAt_cons_S n0 n1).
      apply L. simpl. lia.
    - destruct (decide (k = n)); [lia|]. destruct k as [|k]; [done|].
      rewrite (keyAt_cons_S n0 n1). apply L. simpl. lia. }
  assert (sinking n 0 h1) as S1.
  { split; [|lia]. intros c Hc Hp. unfold le_at, keyOf.
    pose proof (parent_lt c). rewrite !HK1.
    unfold swapped. repeat case_decide; try lia.
    destruct c as [|c]; [lia|]. destruct (parent (S c)) as [|p] eqn:E; [done|].
    rewrite (keyAt_cons_S n0 n1), (keyAt_cons_S n0 n1 _ c), <- E.
    apply HO. simpl. lia. }
  unfold down.
  destruct (down_from_spec n h1 0 0 n)
    as (h2 & m & -> & Hlen2 & L2 & HO2 & Hp2 & Hd2); [lia | done | done |].
  simpl. unfold nodesPop, index.
  assert (length h2 = S n) as Hl2 by (rewrite Hlen2, Hlen1; simpl; lia).
  replace (length h2 - 1) with n by lia.
  destruct (lookup_lt_is_Some_2 h2 n) as [x Hx]; [lia|].
  rewrite Hx. simpl. exists x, (take n h2). split; [done|].
  assert (length (take n h2) = n) as Hlt by (rewrite length_take; lia).
  split; [|split].
  - (* the nodes but the old root *)
    assert (h1 !! n = Some n1) as Hlast.
    { rewrite Hk1. unfold swapped. destruct (decide (n = 0)) as [->|]; [done|].
      by rewrite decide_True. }
    destruct (Swap_perm _ _ _ _ (S n) E1) as [P _]; [lia..|].
    rewrite (take_ge h1), (take_ge (n1 :: rest)) in P by (simpl; lia).
    rewrite <- (take_drop n h1), (drop_S h1 n1 n Hlast) in P.
    rewrite (drop_ge h1 (S n)) in P by lia.
    rewrite <- Permutation_cons_append in P.
    apply Permutation_cons_inv in P. by rewrite Hp2.
  - unfold live. rewrite Hlt. intros k Hk. rewrite keyAt_take by done.
    by apply L2.
  - unfold isHeap. rewrite Hlt. intros c Hc. pose proof (parent_lt c).
    unfold le_at, keyOf. rewrite !keyAt_take by lia. by apply HO2.
Qed.

(** ** One turn of the merge on the heap *)

Lemma live_cons n h : live (n :: h) -> is_Some (mapEntry n) /\ live h.
Proof. rewrite !live_Forall. by inversion 1. Qed.

Lemma dequeue_spec n0 rest :
  live (n0 :: rest) -> isHeap (n0 :: rest) ->
  exists me ph', mapEntry n0 = Some me /\
    dequeue (n0 :: rest) = Ok (Some me, ph') /\
    ph' ≡ₚ advance n0 ++ rest /\ live ph' /\ isHeap ph' /\
    forall k, k < length (n0 :: rest) ->
      kle (Key me) (keyOf (n0 :: rest) k).
Proof.
  intros L HO. destruct (live_cons _ _ L) as [[me Hme] Lrest].
  exists me. unfold dequeue, index, advance. simpl. rewrite Hme.
  assert (forall k, k < length (n0 :: rest) ->
            kle (Key me) (keyOf (n0 :: rest) k)) as Hmin.
  { intros k Hk. pose proof (root_least _ _ k HO Hk) as R.
    unfold le_at in R. unfold keyOf at 1 in R. unfold keyAt in R.
    simpl in R. by rewrite Hme in R. }
  destruct (ch n0) as [|e c]; simpl.
  - destruct (heapPop_root {| mapEntry := None; ch := [] |} rest n0 L HO)
      as (x & h' & -> & P & L' & HO').
    simpl. by exists h'.
  - destruct (heapFix_root {| mapEntry := Some e; ch := c |} rest n0)
      as (h' & -> & P & L' & HO'); [|done|].
    + apply live_Forall. constructor; [by eexists | by apply live_Forall].
    + simpl. by exists h'.
Qed.

Lemma fill_spec chs : forall ph,
  live ph -> isHeap ph -> Forall (fun c => c <> []) chs ->
  exists ph', fill ph chs = Ok ph' /\ live ph' /\ isHeap ph' /\
    ph' ≡ₚ ph ++ (chs ≫= fun c => advance {| mapEntry := None; ch := c |}).
Proof.
  induction chs as [|c chs IH]; intros ph L HO F; simpl.
  - exists ph. by rewrite app_nil_r.
  - inversion F as [|? ? Hc F']; subst. destruct c as [|e c]; [done|]. simpl.
    destruct (heapPush_spec ph {| mapEntry := Some e; ch := c |} L HO)
      as (ph1 & -> & P1 & L1 & HO1); [by eexists|]. simpl.
    destruct (IH ph1 L1 HO1 F') as (ph' & -> & L' & HO' & P').
    exists ph'. repeat split; try done. rewrite P', P1.
    unfold advance at 2. simpl. by rewrite Permutation_middle.
Qed.

Local Close Scope nat_scope.

Local Open Scope nat_scope.

(** * The merge loop *)

#[local] Instance ekle_trans : Transitive ekle.
Proof. intros a b c. apply kle_trans. Qed.

Lemma contents_advance n0 e :
  mapEntry n0 = Some e -> e :: contents (advance n0) = nodeEntries n0.
Proof.
  unfold contents, advance, nodeEntries. intros ->.
  destruct (ch n0); simpl; [done|]. by rewrite app_nil_r.
Qed.

Lemma nodeSorted_advance n0 :
  nodeSorted n0 -> Forall nodeSorted (advance n0).
Proof.
  unfold nodeSorted, advance, nodeEntries. intros Hs.
  destruct (ch n0) as [|e c]; [done|]. constructor; [|done]. simpl.
  destruct (mapEntry n0); simpl in Hs; [by inversion Hs | done].
Qed.

Lemma least_contents me n0 rest :
  mapEntry n0 = Some me -> live (n0 :: rest) ->
  Forall nodeSorted (n0 :: rest) ->
  (forall k, k < length (n0 :: rest) -> kle (Key me) (keyOf (n0 :: rest) k)) ->
  Forall (ekle me) (contents (advance n0 ++ rest)).
Proof.
  intros Hme L Hs Hmin. inversion Hs as [|? ? S0 Srest]; subst.
  unfold contents. rewrite bind_app. apply Forall_app. split.
  - fold (contents (advance n0)).
    unfold nodeSorted in S0. rewrite <- (contents_advance n0 me Hme) in S0.
    by inversion S0.
  - apply Forall_bind. apply Forall_lookup. intros k n Hk.
    pose proof (Hmin (S k)) as Hn. unfold keyOf, keyAt in Hn. simpl in Hn.
    rewrite Hk in Hn. simpl in Hn.
    rewrite Forall_lookup in Srest. specialize (Srest k n Hk).
    unfold nodeSorted, nodeEntries, compose in *.
    destruct (mapEntry n) as [e|] eqn:En; simpl in *.
    + assert (ekle me e) as Le.
      { apply Hn. apply lookup_lt_Some in Hk. lia. }
      constructor; [done|]. inversion Srest as [|? ? _ F]; subst.
      eapply Forall_impl; [exact F|]. intros x Hx. by etrans.
    + apply live_Forall in L. inversion L as [|? ? _ Lrest]; subst.
      rewrite Forall_lookup in Lrest. destruct (Lrest k n Hk) as [e He].
      congruence.
Qed.

Lemma collect_Some size b e : collect size b (Some e) = Ok (absorb size b e).
Proof. done. Qed.

Lemma mergeLoop_spec size fuel : forall ph b,
  live ph -> isHeap ph -> length (contents ph) <= fuel ->
  exists recs, mergeLoop size fuel ph b = (foldl (absorb size) b recs, Ok tt) /\
    recs ≡ₚ contents ph /\
    (Forall nodeSorted ph -> StronglySorted ekle recs).
Proof.
  induction fuel as [|fuel IH]; intros ph b L HO Hfuel.
  - destruct ph as [|n0 rest].
    + exists []. by repeat split; try constructor.
    + destruct (live_cons _ _ L) as [[e He] _].
      unfold contents in Hfuel. simpl in Hfuel. unfold nodeEntries in Hfuel.
      rewrite He in Hfuel. simpl in Hfuel. lia.
  - destruct ph as [|n0 rest].
    + exists []. by repeat split; try constructor.
    + destruct (dequeue_spec n0 rest L HO)
        as (me & ph' & Hme & Hd & P & L' & HO' & Hmin).
      cbn [mergeLoop]. rewrite Hd. simpl.
      assert (contents (n0 :: rest) = me :: contents (advance n0 ++ rest)) as E.
      { unfold contents. rewrite bind_app, app_comm_cons.
        fold (contents (advance n0)). by rewrite (contents_advance n0 me). }
      assert (contents ph' ≡ₚ contents (advance n0 ++ rest)) as P'.
      { unfold contents. by rewrite P. }
      destruct (IH ph' (absorb size b me) L' HO') as (recs & -> & Pr & Sr).
      { rewrite P'. rewrite E in Hfuel. simpl in Hfuel. lia. }
      exists (me :: recs). split; [done|]. split.
      * change (me :: recs ≡ₚ contents (n0 :: rest)). by rewrite E, Pr, P'.
      * intros Hs. constructor.
        -- apply Sr. rewrite P. apply Forall_app. inversion Hs; subst.
           split; [by apply nodeSorted_advance | done].
        -- rewrite Pr, P'. by apply least_contents.
Qed.

(** ** The whole of [shufflePostings] *)

Lemma contents_first (chs : list chan) :
  contents (chs ≫= fun c => advance {| mapEntry := None; ch := c |}) = concat chs.
Proof.
  induction chs as [|c chs IH]; [done|].
  rewrite bind_cons. unfold contents in *. rewrite bind_app, IH. simpl.
  f_equal. destruct c as [|e c]; [done|].
  unfold advance, nodeEntries. simpl. by rewrite app_nil_r.
Qed.

Lemma nodeSorted_first (chs : list chan) :
  Forall (StronglySorted ekle) chs ->
  Forall nodeSorted (chs ≫= fun c => advance {| mapEntry := None; ch := c |}).
Proof.
  intros F. apply Forall_bind. eapply Forall_impl; [exact F|].
  intros [|e c] Hs; unfold compose, advance; simpl; [done|].
  constructor; [|done]. done.
Qed.

Lemma shuffle_merges size chs :
  Forall (fun c => c <> []) chs ->
  exists recs, shuffle size chs = merged size recs /\ recs ≡ₚ concat chs /\
    (Forall (StronglySorted ekle) chs -> StronglySorted ekle recs).
Proof.
  intros F. unfold shuffle.
  destruct (fill_spec chs []) as (ph & -> & L & HO & P); [| |done|].
  { intros i Hi. simpl in Hi. lia. }
  { intros c Hc. simpl in Hc. lia. }
  simpl in P.
  assert (contents ph ≡ₚ concat chs) as Pc.
  { rewrite <- contents_first. unfold contents. by rewrite P. }
  destruct (mergeLoop_spec size (turns chs) ph start L HO)
    as (recs & -> & Pr & Sr).
  { rewrite Pc. unfold turns. lia. }
  exists recs. split; [done|]. split.
  - by rewrite Pr.
  - intros Hs. apply Sr. rewrite P. by apply nodeSorted_first.
Qed.

Lemma heapPush_dead ph : ph <> [] -> heapPush ph dead = Panic.
Proof.
  intros Hne. unfold heapPush, nodesPush. rewrite length_app. simpl.
  replace (length ph + 1 - 1) with (length ph) by lia.
  assert (0 < length ph) as Hl by (destruct ph; [done | simpl; lia]).
  rewrite up_eq. cbv zeta. fold (parent (length ph)).
  pose proof (parent_lt _ Hl).
  destruct (Nat.eqb_spec (parent (length ph)) (length ph)); [lia|].
  unfold Less, index.
  rewrite (lookup_app_r ph [dead] (length ph)), Nat.sub_diag by lia. done.
Qed.

Lemma heapPush_on_dead x : heapPush [dead] x = Panic.
Proof. by destruct x as [[e|] c]. Qed.

Lemma fill_empty_stream chs : forall ph,
  live ph -> isHeap ph -> [] ∈ chs ->
  fill ph chs = Panic \/ (ph = [] /\ chs = [[]]).
Proof.
  induction chs as [|c chs IH]; intros ph L HO Hin.
  - by apply elem_of_nil in Hin.
  - destruct c as [|e c].
    + simpl. destruct ph as [|n ph].
      * destruct chs as [|c' chs]; [by right|]. left.
        change (heapPush [] {| mapEntry := None; ch := [] |}) with (Ok [dead]).
        simpl. destruct (recv c') as [[me ok] c'']. simpl.
        by rewrite heapPush_on_dead.
      * left. fold dead. by rewrite heapPush_dead.
    + apply elem_of_cons in Hin as [Hin|Hin]; [done|]. simpl.
      destruct (heapPush_spec ph {| mapEntry := Some e; ch := c |} L HO)
        as (ph1 & -> & P1 & L1 & HO1); [by eexists|]. simpl.
      destruct (IH ph1 L1 HO1 Hin) as [->|[-> _]]; [by left|].
      by apply Permutation_nil_cons in P1.
Qed.

Lemma shuffle_empty_stream size chs : [] ∈ chs -> shuffle size chs = crashed.
Proof.
  intros Hin. unfold shuffle.
  destruct (fill_empty_stream chs []) as [->|[_ ->]]; try done.
  - intros i Hi. simpl in Hi. lia.
Qed.

Lemma empty_or_not {A} (chs : list (list A)) :
  [] ∈ chs \/ Forall (fun c => c <> []) chs.
Proof.
  induction chs as [|c chs [IH|IH]].
  - right. constructor.
  - left. apply elem_of_cons. by right.
  - destruct c; [left; apply elem_of_cons; by left | right; by constructor].
Qed.

(** Either some channel is closed from the start, and the merge panics before
    it sends or counts anything, or it merges every entry. *)
Lemma shuffle_cases size chs :
  ([] ∈ chs /\ shuffle size chs = crashed) \/
  (Forall (fun c => c <> []) chs /\
   exists recs, shuffle size chs = merged size recs /\ recs ≡ₚ concat chs /\
     (Forall (StronglySorted ekle) chs -> StronglySorted ekle recs)).
Proof.
  destruct (empty_or_not chs) as [Hin|F].
  - left. split; [done | by apply shuffle_empty_stream].
  - right. split; [done | by apply shuffle_merges].
Qed.

(** The loop stopped after [fuel] turns: [done] is what it took so far and
    [todo] what it would take next. *)
Lemma mergeLoop_any size fuel : forall ph b,
  live ph -> isHeap ph ->
  exists done todo e,
    mergeLoop size fuel ph b = (foldl (absorb size) b done, e) /\
    done ++ todo ≡ₚ contents ph /\
    (Forall nodeSorted ph -> StronglySorted ekle (done ++ todo)).
Proof.
  induction fuel as [|fuel IH]; intros ph b L HO.
  - destruct (mergeLoop_spec size (length (contents ph)) ph b L HO)
      as (recs & _ & Pr & Sr); [done|].
    exists [], recs. destruct ph; eexists; (split; [done|]); by split.
  - destruct ph as [|n0 rest].
    + exists [], [], (Ok tt). by repeat split; try constructor.
    + destruct (dequeue_spec n0 rest L HO)
        as (me & ph' & Hme & Hd & P & L' & HO' & Hmin).
      cbn [mergeLoop]. rewrite Hd. simpl.
      assert (contents (n0 :: rest) = me :: contents (advance n0 ++ rest)) as E.
      { unfold contents. rewrite bind_app, app_comm_cons.
        fold (contents (advance n0)). by rewrite (contents_advance n0 me). }
      assert (contents ph' ≡ₚ contents (advance n0 ++ rest)) as P'.
      { unfold contents. by rewrite P. }
      destruct (IH ph' (absorb size b me) L' HO')
        as (done & todo & e & -> & Pr & Sr).
      exists (me :: done), todo, e. split; [done|]. split.
      * change ((me :: done) ++ todo ≡ₚ contents (n0 :: rest)).
        rewrite E. simpl. by rewrite Pr, P'.
      * intros Hs. simpl. constructor.
        -- apply Sr. rewrite P. apply Forall_app. inversion Hs; subst.
           split; [by apply nodeSorted_advance | done].
        -- rewrite Pr, P'. by apply least_contents.
Qed.

Local Close Scope nat_scope.

(** * Batches and counts *)

Lemma absorb_output size b e :
  output (absorb size b e) =
  if cuts size b e then output b ++ [batch b] else output b.
Proof.
  unfold absorb, cuts.
  destruct (negb (Compare (prevKey b) (Key e) =? 0)) eqn:C;
    destruct (plistLen b >? 0); simpl; rewrite ?C;
    destruct (Z.of_nat (length (batch b)) >=? size); done.
Qed.

Lemma absorb_batch size b e :
  batch (absorb size b e) = (if cuts size b e then [] else batch b) ++ [e].
Proof.
  unfold absorb, cuts.
  destruct (negb (Compare (prevKey b) (Key e) =? 0)) eqn:C;
    destruct (plistLen b >? 0); simpl; rewrite ?C;
    destruct (Z.of_nat (length (batch b)) >=? size); done.
Qed.

Lemma absorb_counted size b e :
  counted (absorb size b e) =
  if reports b e then counted b ++ [(prevKey b, plistLen b)] else counted b.
Proof.
  unfold absorb, reports.
  destruct (negb (Compare (prevKey b) (Key e) =? 0)) eqn:C;
    destruct (plistLen b >? 0); simpl; rewrite ?C;
    destruct (Z.of_nat (length (batch b)) >=? size); done.
Qed.

Lemma absorb_plistLen size b e :
  plistLen (absorb size b e) =
  wrapInt ((if reports b e then 0 else plistLen b) + 1).
Proof.
  unfold absorb, reports.
  destruct (negb (Compare (prevKey b) (Key e) =? 0)) eqn:C;
    destruct (plistLen b >? 0); simpl; rewrite ?C;
    destruct (Z.of_nat (length (batch b)) >=? size); done.
Qed.

Lemma absorb_prevKey size b e : prevKey (absorb size b e) = Key e.
Proof. done. Qed.

Lemma cuts_true size b e :
  cuts size b e = true ->
  size <= Z.of_nat (length (batch b)) /\ prevKey b <> Key e.
Proof.
  unfold cuts. intros [H1 H2]%andb_true_iff. split; [lia|].
  intros E%Compare_eq. rewrite E in H2. done.
Qed.

Lemma reports_true b e :
  reports b e = true <-> prevKey b <> Key e /\ 0 < plistLen b.
Proof.
  unfold reports.
  by rewrite andb_true_iff, negb_true_iff, Z.eqb_neq, Compare_eq, Z.gtb_lt.
Qed.

Lemma adjacent_snoc {A} (R : A -> A -> Prop) (l : list A) (x : A) :
  adjacent R l -> (forall y, last l = Some y -> R y x) -> adjacent R (l ++ [x]).
Proof.
  intros Hl Hx i a b Ha Hb.
  assert (S i < length (l ++ [x]))%nat as Hi by (by eapply lookup_lt_Some).
  rewrite length_app in Hi. simpl in Hi.
  rewrite lookup_app_l in Ha by lia.
  destruct (decide (S i = length l)) as [E|NE].
  - rewrite lookup_app_r, E, Nat.sub_diag in Hb by lia. injection Hb as <-.
    apply Hx. rewrite last_lookup. by replace (pred (length l)) with i by lia.
  - rewrite lookup_app_l in Hb by lia. by eapply Hl.
Qed.

Lemma adjacent_app_l {A} (R : A -> A -> Prop) (l k : list A) :
  adjacent R (l ++ k) -> adjacent R l.
Proof.
  intros H i x y Hx Hy. apply (H i); by apply lookup_app_l_Some.
Qed.

Lemma batched_start size : batched size [] start.
Proof.
  split; try done.
Qed.

Lemma last_app_ne {A} (l k : list A) : k <> [] -> last (l ++ k) = last k.
Proof.
  intros Hk. destruct k as [|x k _] using rev_ind; [done|].
  by rewrite app_assoc, !last_snoc.
Qed.

Lemma batched_step size recs b e :
  0 < size -> batched size recs b ->
  batched size (recs ++ [e]) (absorb size b e).
Proof.
  intros Hsize [Hall Hkey Hnil Hsz Hcut].
  assert (batch b <> [] -> last (batch b) = last recs) as Hlast.
  { intros Hne. rewrite <- Hall. symmetry. by apply last_app_ne. }
  split.
  - rewrite absorb_output, absorb_batch. destruct (cuts size b e).
    + rewrite concat_app. simpl. by rewrite app_nil_r, Hall.
    + by rewrite app_assoc, Hall.
  - rewrite absorb_prevKey. unfold lastKey. by rewrite last_snoc.
  - rewrite absorb_batch. by intros [_ ?]%app_eq_nil.
  - rewrite absorb_output. destruct (cuts size b e) eqn:C; [|done].
    apply Forall_app. split; [done|]. constructor; [|done].
    by apply cuts_true in C as [? _].
  - rewrite absorb_output, absorb_batch.
    destruct (cuts size b e) eqn:C; simpl.
    + apply cuts_true in C as [Hlen Hne].
      assert (batch b <> []) as Hb by (intros E; rewrite E in Hlen; simpl in *; lia).
      apply adjacent_snoc; [done|]. intros y. rewrite last_snoc. intros [= <-].
      destruct (last (batch b)) as [a|] eqn:La.
      * exists a, e. repeat split; try done.
        rewrite Hkey in Hne. unfold lastKey in Hne.
        rewrite <- (Hlast Hb) in Hne. done.
      * by apply last_None in La.
    + apply adjacent_snoc; [by eapply adjacent_app_l|].
      intros y Hy. destruct (batch b) as [|x l] eqn:Eb.
      * rewrite (Hnil eq_refl) in Hall.
        apply app_eq_nil in Hall as [Hc _].
        destruct (output b) as [|o os] using rev_ind; [done|].
        rewrite last_snoc in Hy. injection Hy as ->.
        rewrite Forall_app, Forall_singleton in Hsz. destruct Hsz as [_ Hy].
        rewrite concat_app in Hc. simpl in Hc.
        apply app_eq_nil in Hc as [_ Hc]. rewrite app_nil_r in Hc.
        rewrite Hc in Hy. simpl in Hy. lia.
      * destruct (Hcut (pred (length (output b))) y (x :: l))
          as (a & c & Ha & Hc & Hac).
        { rewrite lookup_app_l; [by rewrite <- last_lookup|].
          destruct (output b); [done | simpl; lia]. }
        { destruct (output b) as [|o os] eqn:Eo; [done|].
          rewrite lookup_app_r by (simpl; lia).
          replace (S (pred (length (o :: os))) - length (o :: os))%nat
            with 0%nat by (simpl; lia). done. }
        exists a, c. by repeat split.
Qed.

Lemma batched_foldl size recs :
  0 < size -> batched size recs (foldl (absorb size) start recs).
Proof.
  intros Hsize. induction recs as [|e recs IH] using rev_ind.
  - apply batched_start.
  - rewrite foldl_snoc. by apply batched_step.
Qed.

Lemma flush_output b :
  output (flush b) =
  match batch b with [] => output b | _ :: _ => output b ++ [batch b] end.
Proof.
  unfold flush. destruct (batch b) as [|x l] eqn:Eb.
  - simpl. by destruct (plistLen b >? 0).
  - assert ((Z.of_nat (length (x :: l)) >? 0) = true) as ->.
    { apply Z.gtb_lt. simpl length. lia. }
    simpl. destruct (plistLen b >? 0); simpl; by rewrite Eb.
Qed.

Lemma flush_counted b :
  counted (flush b) =
  if plistLen b >? 0 then counted b ++ [(prevKey b, plistLen b)]
  else counted b.
Proof.
  unfold flush. destruct (Z.of_nat (length (batch b)) >? 0); simpl;
    by destruct (plistLen b >? 0).
Qed.

Lemma merged_batches size recs :
  0 < size -> batches size recs (sent (merged size recs)).
Proof.
  intros Hsize. unfold merged. cbn [sent]. rewrite flush_output.
  destruct (batched_foldl size recs Hsize) as [Hall Hkey Hnil Hsz Hcut].
  set (b := foldl (absorb size) start recs) in *.
  assert (Forall (fun x : list MapEntry => x <> []) (output b)) as Hne.
  { eapply Forall_impl; [exact Hsz|]. intros x Hx ->. simpl in Hx. lia. }
  destruct (batch b) as [|e l] eqn:Eb.
  - rewrite (Hnil eq_refl) in *. apply app_eq_nil in Hall as [Hc _].
    assert (output b = []) as ->.
    { destruct (output b) as [|o os]; [done|]. inversion Hne; subst.
      simpl in Hc. apply app_eq_nil in Hc as [? _]. done. }
    split; done.
  - split.
    + rewrite concat_app. simpl. by rewrite app_nil_r.
    + apply Forall_app. split; [done|]. by constructor.
    + done.
    + intros i x Hx Hi. rewrite length_app in Hi. simpl in Hi.
      rewrite lookup_app_l in Hx by lia.
      rewrite Forall_lookup in Hsz. by apply (Hsz i).
Qed.

(** ** No key in two batches *)

Lemma sorted_last_le (l : list MapEntry) x a :
  StronglySorted ekle l -> x ∈ l -> last l = Some a -> ekle x a.
Proof.
  intros Hs Hx Ha. destruct l as [|y l _] using rev_ind; [done|].
  rewrite last_snoc in Ha. injection Ha as ->.
  apply elem_of_app in Hx as [Hx|Hx].
  - eapply StronglySorted_app_1_elem_of; [exact Hs | done | apply list_elem_of_singleton; done].
  - apply list_elem_of_singleton in Hx as ->. apply kle_refl.
Qed.

Lemma sorted_head_le (l : list MapEntry) x a :
  StronglySorted ekle l -> x ∈ l -> head l = Some a -> ekle a x.
Proof.
  intros Hs Hx Ha. destruct l as [|y l]; [done|]. injection Ha as ->.
  apply elem_of_cons in Hx as [->|Hx]; [apply kle_refl|].
  inversion Hs as [|? ? _ F]; subst. rewrite Forall_forall in F. by apply F.
Qed.

Lemma elem_of_concat {A} (x : A) (l : list A) (ls : list (list A)) :
  x ∈ l -> l ∈ ls -> x ∈ concat ls.
Proof.
  intros Hx. induction 1 as [l ls|l l' ls _ IH]; simpl; apply elem_of_app; auto.
Qed.

(** In a sorted sequence cut at key boundaries, an earlier and a later batch
    share no key. *)
Lemma batches_apart (out : list (list MapEntry)) i j x y r s :
  StronglySorted ekle (concat out) -> adjacent boundary out ->
  out !! i = Some x -> out !! j = Some y -> (i < j)%nat ->
  r ∈ x -> s ∈ y -> Key r <> Key s.
Proof.
  intros Hs Hcut Hx Hy Hij Hr Hsy E.
  destruct (lookup_lt_is_Some_2 out (S i)) as [z Hz].
  { apply lookup_lt_Some in Hy. lia. }
  destruct (Hcut i x z Hx Hz) as (a & c & Ha & Hc & Hac).
  rewrite <- (take_drop_middle out i x Hx) in Hs.
  rewrite concat_app in Hs. apply StronglySorted_app_1_r in Hs. simpl in Hs.
  assert (s ∈ concat (drop (S i) out)) as Hs2.
  { apply (elem_of_concat _ y); [done|].
    apply list_elem_of_lookup. exists (j - S i)%nat.
    rewrite lookup_drop. by replace (S i + (j - S i))%nat with j by lia. }
  assert (head (concat (drop (S i) out)) = Some c) as Hhead.
  { rewrite (drop_S out z (S i) Hz). simpl. destruct z; [done|]. done. }
  assert (ekle r a) as L1.
  { eapply sorted_last_le; [exact (StronglySorted_app_1_l _ _ _ Hs) | done | done]. }
  assert (ekle c s) as L3.
  { eapply sorted_head_le; [exact (StronglySorted_app_1_r _ _ _ Hs) | done | done]. }
  assert (ekle a c) as L2.
  { eapply StronglySorted_app_1_elem_of; [exact Hs | |].
    - apply last_Some in Ha as [l' ->]. apply elem_of_app. right.
      by apply list_elem_of_singleton.
    - destruct (concat (drop (S i) out)) as [|c' l']; [done|].
      injection Hhead as ->. apply elem_of_cons. by left. }
  unfold ekle in *. apply Hac. apply kle_antisym; [done|].
  apply kle_trans with (Key s); [done|]. by rewrite <- E.
Qed.

Lemma batches_disjoint (out : list (list MapEntry)) i j x y r s :
  StronglySorted ekle (concat out) -> adjacent boundary out ->
  out !! i = Some x -> out !! j = Some y ->
  r ∈ x -> s ∈ y -> Key r = Key s -> i = j.
Proof.
  intros Hs Hcut Hx Hy Hr Hsy E.
  destruct (Nat.lt_trichotomy i j) as [H|[H|H]]; [|done|].
  - by destruct (batches_apart out i j x y r s).
  - by destruct (batches_apart out j i y x s r).
Qed.

(** * Counts *)

Lemma keyCount_app k l1 l2 : keyCount k (l1 ++ l2) = keyCount k l1 + keyCount k l2.
Proof. induction l1 as [|r l1 IH]; simpl; lia. Qed.

Lemma keyCount_perm k l1 l2 : l1 ≡ₚ l2 -> keyCount k l1 = keyCount k l2.
Proof. induction 1; simpl; lia. Qed.

Lemma keyCount_bounds k l : 0 <= keyCount k l <= Z.of_nat (length l).
Proof.
  induction l as [|r l IH]; simpl length; simpl keyCount; [lia|].
  destruct (Compare (Key r) k =? 0); lia.
Qed.

Lemma keyCount_here k r : Key r = k -> keyCount k [r] = 1.
Proof.
  intros <-. simpl. by rewrite (proj2 (Compare_eq _ _) eq_refl).
Qed.

Lemma keyCount_other k r : Key r <> k -> keyCount k [r] = 0.
Proof.
  intros H. simpl. destruct (Z.eqb_spec (Compare (Key r) k) 0) as [E|]; [|done].
  by apply Compare_eq in E.
Qed.

Lemma keyCount_pos k l : 0 < keyCount k l <-> exists r, r ∈ l /\ Key r = k.
Proof.
  induction l as [|r l IH]; simpl.
  - split; [lia|]. intros (r & Hr & _). by apply elem_of_nil in Hr.
  - destruct (Z.eqb_spec (Compare (Key r) k) 0) as [E|NE].
    + apply Compare_eq in E. pose proof (keyCount_bounds k l). split; [|lia].
      intros _. exists r. split; [apply elem_of_cons; by left | done].
    + split.
      * intros H. destruct (proj1 IH) as (r' & Hr & Hk); [lia|].
        exists r'. split; [apply elem_of_cons; by right | done].
      * intros (r' & Hr & Hk). apply elem_of_cons in Hr as [->|Hr].
        -- destruct NE. by apply Compare_eq.
        -- assert (0 < keyCount k l) by (apply IH; eauto). lia.
Qed.

Lemma keyCount_zero k l : (forall r, r ∈ l -> Key r <> k) -> keyCount k l = 0.
Proof.
  intros H. pose proof (keyCount_bounds k l).
  destruct (decide (0 < keyCount k l)) as [Hp|]; [|lia].
  apply keyCount_pos in Hp as (r & Hr & Hk). by destruct (H r Hr).
Qed.

Lemma klt_trans_le a b c : klt a b -> kle b c -> klt a c.
Proof.
  intros [L N] L'. split; [by eapply kle_trans|]. intros ->.
  apply N. by apply kle_antisym.
Qed.

Lemma wrapInt_small z : - 2 ^ 63 <= z < 2 ^ 63 -> wrapInt z = z.
Proof. intros H. unfold wrapInt. rewrite Z.mod_small; lia. Qed.

Lemma counting_start : counting [] start.
Proof.
  split; [done | done | constructor |].
  intros r Hr. by apply elem_of_nil in Hr.
Qed.

Lemma lastKey_le recs e r :
  StronglySorted ekle (recs ++ [e]) -> r ∈ recs -> kle (Key r) (lastKey recs).
Proof.
  intros Hs Hr. apply StronglySorted_app_1_l in Hs.
  destruct (last recs) as [a|] eqn:La.
  - unfold lastKey. rewrite La. simpl. by apply (sorted_last_le recs).
  - apply last_None in La. subst. by apply elem_of_nil in Hr.
Qed.

Lemma lastKey_count recs : recs <> [] -> 0 < keyCount (lastKey recs) recs.
Proof.
  intros H. destruct recs as [|a recs _] using rev_ind; [done|].
  unfold lastKey. rewrite last_snoc. simpl. rewrite keyCount_app.
  rewrite (keyCount_here _ a) by done. pose proof (keyCount_bounds (Key a) recs).
  lia.
Qed.

Lemma counting_step size recs b e :
  StronglySorted ekle (recs ++ [e]) ->
  Z.of_nat (length (recs ++ [e])) < 2 ^ 63 ->
  prevKey b = lastKey recs ->
  counting recs b -> counting (recs ++ [e]) (absorb size b e).
Proof.
  intros Hs Hlen Hkey [Hpl Hdone Hsrt Hall].
  rewrite length_app in Hlen. simpl in Hlen.
  assert (forall r, r ∈ recs -> kle (Key r) (prevKey b)) as Hle.
  { intros r Hr. rewrite Hkey. by eapply lastKey_le. }
  assert (forall r, r ∈ recs -> kle (Key r) (Key e)) as Hle'.
  { intros r Hr. eapply (StronglySorted_app_1_elem_of ekle); [exact Hs|done|].
    by apply list_elem_of_singleton. }
  assert (recs <> [] -> 0 < plistLen b) as Hpos.
  { intros Hne. rewrite Hpl, Hkey. by apply lastKey_count. }
  assert (recs <> [] -> kle (prevKey b) (Key e)) as Hpk.
  { intros Hne. destruct recs as [|a recs' _] using rev_ind; [done|].
    rewrite Hkey. unfold lastKey. rewrite last_snoc. simpl.
    apply Hle'. apply elem_of_app. right. by apply list_elem_of_singleton. }
  pose proof (keyCount_bounds (prevKey b) recs) as Hb.
  split; rewrite ?absorb_plistLen, ?absorb_counted, ?absorb_prevKey.
  - (* the running count *)
    rewrite keyCount_app, (keyCount_here _ e) by done.
    destruct (reports b e) eqn:R.
    + apply reports_true in R as [Hne Hp].
      assert (recs <> []) as Hr.
      { intros ->. simpl in Hpl. lia. }
      rewrite keyCount_zero; [by rewrite wrapInt_small by lia|].
      intros r Hin E. apply Hne. apply kle_antisym; [by apply Hpk|].
      rewrite <- E. by apply Hle.
    + destruct (decide (prevKey b = Key e)) as [E|NE].
      * rewrite wrapInt_small by lia. by rewrite Hpl, E.
      * assert (recs = []) as ->.
        { destruct recs as [|a l]; [done|]. exfalso.
          assert (reports b e = true); [|congruence].
          apply reports_true. split; [done | by apply Hpos]. }
        simpl in *. rewrite Hpl. by rewrite wrapInt_small by lia.
  - (* the counts reported so far *)
    assert (Forall (fun p => klt p.1 (Key e) /\
              p.2 = keyCount p.1 (recs ++ [e]) /\ 0 < p.2) (counted b)) as Hold.
    { eapply Forall_impl; [exact Hdone|]. intros [k n] (Hk & Hn & Hp). simpl in *.
      assert (klt k (Key e)) as Hke.
      { destruct recs as [|a l] eqn:Er.
        - simpl in Hn. lia.
        - eapply klt_trans_le; [exact Hk|]. by apply Hpk. }
      split; [done|]. split; [|done].
      rewrite keyCount_app, (keyCount_other k e); [lia|].
      destruct Hke as [_ Hke]. congruence. }
    destruct (reports b e) eqn:R; [|done].
    apply reports_true in R as [Hne Hp].
    assert (recs <> []) as Hr by (intros ->; simpl in Hpl; lia).
    apply Forall_app. split; [done|]. constructor; [|done]. simpl.
    split; [split; [by apply Hpk | done]|]. split; [|done].
    rewrite keyCount_app, (keyCount_other _ e); [lia | congruence].
  - (* each key once *)
    destruct (reports b e) eqn:R; [|done].
    rewrite fmap_app. simpl. apply StronglySorted_app_2; [|done|].
    + intros k1 k2 Hk1 ->%list_elem_of_singleton.
      apply list_elem_of_fmap in Hk1 as ([k n] & -> & Hin).
      rewrite Forall_forall in Hdone. by destruct (Hdone _ Hin) as [? _].
    + by repeat constructor.
  - (* no key forgotten *)
    intros r [Hr|Hr%list_elem_of_singleton]%elem_of_app; [|left; by subst].
    assert (recs <> []) as Hne by (intros ->; by apply elem_of_nil in Hr).
    destruct (reports b e) eqn:R.
    + right. rewrite fmap_app. apply elem_of_app.
      destruct (Hall r Hr) as [E|Hin]; [right | by left].
      simpl. by apply list_elem_of_singleton.
    + destruct (Hall r Hr) as [E|Hin]; [left | by right].
      rewrite E. destruct (decide (prevKey b = Key e)) as [|NE]; [done|].
      assert (reports b e = true); [|congruence].
      apply reports_true. split; [done | by apply Hpos].
Qed.

Lemma foldl_prevKey size recs :
  prevKey (foldl (absorb size) start recs) = lastKey recs.
Proof.
  destruct recs as [|e recs _] using rev_ind; [done|].
  rewrite foldl_snoc. unfold lastKey. by rewrite last_snoc.
Qed.

Lemma counting_foldl size recs :
  StronglySorted ekle recs -> Z.of_nat (length recs) < 2 ^ 63 ->
  counting recs (foldl (absorb size) start recs).
Proof.
  induction recs as [|e recs IH] using rev_ind; intros Hs Hlen.
  - apply counting_start.
  - rewrite foldl_snoc. apply counting_step; [done | done | |].
    + apply foldl_prevKey.
    + apply IH; [by eapply StronglySorted_app_1_l|].
      rewrite length_app in Hlen. simpl in Hlen. lia.
Qed.

Lemma merged_counts size recs :
  StronglySorted ekle recs -> Z.of_nat (length recs) < 2 ^ 63 ->
  counts recs (reported (merged size recs)).
Proof.
  intros Hs Hlen. unfold merged. cbn [reported]. rewrite flush_counted.
  destruct (counting_foldl size recs Hs Hlen) as [Hpl Hdone Hsrt Hall].
  set (b := foldl (absorb size) start recs) in *.
  assert (Forall (fun p => p.2 = keyCount p.1 recs /\ 0 < p.2) (counted b))
    as Hdone'.
  { eapply Forall_impl; [exact Hdone|]. by intros p (_ & ? & ?). }
  destruct (Z.gtb_spec (plistLen b) 0) as [Hp|Hp].
  - split.
    + rewrite fmap_app. simpl. apply StronglySorted_app_2; [|done|].
      * intros k1 k2 Hk1 ->%list_elem_of_singleton.
        apply list_elem_of_fmap in Hk1 as ([k n] & -> & Hin).
        rewrite Forall_forall in Hdone. by destruct (Hdone _ Hin) as [? _].
      * by repeat constructor.
    + apply Forall_app. split; [done|]. by constructor.
    + intros r Hr. rewrite fmap_app. apply elem_of_app.
      destruct (Hall r Hr) as [E|Hin]; [right | by left].
      simpl. by apply list_elem_of_singleton.
  - split; [done | done |]. intros r Hr.
    destruct (Hall r Hr) as [E|Hin]; [|done]. exfalso.
    assert (0 < keyCount (prevKey b) recs); [|lia].
    apply keyCount_pos. eauto.
Qed.

Lemma klt_irrefl a : ~ klt a a.
Proof. by intros [_ ?]. Qed.

Lemma klt_trans a b c : klt a b -> klt b c -> klt a c.
Proof. intros H [H' _]. by eapply klt_trans_le. Qed.

Lemma filter_none {A} (P : A -> Prop) `{forall x, Decision (P x)} (l : list A) :
  Forall (fun x => ~ P x) l -> filter P l = [].
Proof.
  induction 1 as [|x l Hx _ IH]; [done|]. by rewrite filter_cons_False.
Qed.

Lemma sorted_filter_key (rep : list (list byte * Z)) k n :
  StronglySorted klt rep.*1 -> (k, n) ∈ rep ->
  filter (fun p => p.1 = k) rep = [(k, n)].
Proof.
  induction rep as [|[k' n'] rep IH]; intros Hs Hin.
  - by apply elem_of_nil in Hin.
  - simpl in Hs. apply StronglySorted_cons in Hs as [Hall Hs].
    apply elem_of_cons in Hin as [[= <- <-]|Hin].
    + rewrite filter_cons_True by done. f_equal. apply filter_none.
      apply Forall_forall. intros [k2 n2] Hin2 E. simpl in E. subst k2.
      rewrite Forall_forall in Hall. apply (klt_irrefl k), Hall.
      apply list_elem_of_fmap. by exists (k, n2).
    + rewrite filter_cons_False; [by apply IH|]. simpl. intros ->.
      rewrite Forall_forall in Hall. apply (klt_irrefl k), Hall.
      apply list_elem_of_fmap. by exists (k, n).
Qed.

(** The reports about one key: one with the number of its entries when there
    are some, none otherwise. *)
Lemma counts_once recs rep k :
  counts recs rep ->
  filter (fun p => p.1 = k) rep =
  if 0 <? keyCount k recs then [(k, keyCount k recs)] else [].
Proof.
  intros [Hs Hex Hall]. rewrite Forall_forall in Hex.
  destruct (Z.ltb_spec 0 (keyCount k recs)) as [Hp|Hp].
  - apply keyCount_pos in Hp as (r & Hr & <-).
    destruct (proj1 (list_elem_of_fmap _ _ _) (Hall r Hr)) as ([k n] & E & Hin).
    simpl in E. subst k. destruct (Hex _ Hin) as [E _]. simpl in E. subst n.
    by apply sorted_filter_key.
  - apply filter_none. apply Forall_forall. intros [k' n'] Hin E.
    simpl in E. subst k'. destruct (Hex _ Hin) as [? ?]. simpl in *. lia.
Qed.

(** A count, once reported, is the count over all entries: none of the key is
    still to come. *)
Lemma counted_final size done todo :
  StronglySorted ekle (done ++ todo) ->
  Z.of_nat (length (done ++ todo)) < 2 ^ 63 ->
  Forall (fun p => p.2 = keyCount p.1 (done ++ todo) /\ keyCount p.1 todo = 0)
    (counted (foldl (absorb size) start done)).
Proof.
  intros Hs Hlen. rewrite length_app in Hlen.
  destruct (counting_foldl size done) as [_ Hdone _ _];
    [by eapply StronglySorted_app_1_l | lia |].
  eapply Forall_impl; [exact Hdone|]. intros [k n] (Hk & Hn & Hp). simpl in *.
  rewrite foldl_prevKey in Hk.
  assert (keyCount k todo = 0) as Hz.
  { apply keyCount_zero. intros r Hr E.
    destruct (last done) as [a|] eqn:La.
    - unfold lastKey in Hk. rewrite La in Hk. simpl in Hk.
      assert (ekle a r) as Har.
      { eapply (StronglySorted_app_1_elem_of ekle); [exact Hs| |done].
        apply last_Some in La as [l' ->]. apply elem_of_app. right.
        by apply list_elem_of_singleton. }
      apply (klt_irrefl k). eapply klt_trans_le; [exact Hk|]. by rewrite <- E.
    - apply last_None in La. subst done. simpl in Hn. lia. }
  rewrite keyCount_app. split; [lia | done].
Qed.

(** * The decoder *)

Lemma byte_facts y :
  0 <= y < 256 ->
  byteZ (toByte y) = y /\ 128 <= Z.lor y 128 < 256 /\
  Z.land (Z.lor y 128) 127 = y mod 128.
Proof.
  intros Hy.
  assert (forallb byteOk (seq 0 256) = true) as H by (by vm_compute).
  rewrite forallb_forall in H. specialize (H (Z.to_nat y)).
  unfold byteOk in H. rewrite Z2Nat.id in H by lia.
  rewrite !andb_true_iff in H. destruct H as [[[H1 H2] H3] H4].
  { apply in_seq. lia. }
  lia.
Qed.

Lemma lor_disjoint a b s :
  0 <= s -> 0 <= a < 2 ^ s -> 0 <= b -> Z.lor a (b * 2 ^ s) = a + b * 2 ^ s.
Proof.
  intros Hs Ha Hb.
  assert (Z.land a (b * 2 ^ s) = 0) as Hland.
  { apply Z.bits_inj'. intros n Hn. rewrite Z.land_spec, Z.bits_0.
    destruct (Z.lt_ge_cases n s) as [Hlt|Hge].
    - rewrite Z.mul_pow2_bits_low by lia. apply andb_false_r.
    - destruct (Z.eq_dec a 0) as [->|Hne]; [by rewrite Z.bits_0|].
      rewrite (Z.bits_above_log2 a n); [done | lia |].
      apply Z.log2_lt_pow2; [lia|].
      apply Z.lt_le_trans with (2 ^ s); [lia|].
      apply Z.pow_le_mono_r; lia. }
  rewrite <- Z.lxor_lor by done. symmetry. by apply Z.add_nocarry_lxor.
Qed.

Lemma uvarint_put fuel : forall x i acc rest,
  0 <= i -> i + Z.of_nat fuel = 10 ->
  0 <= x < 2 ^ (64 - 7 * i) -> 0 <= acc < 2 ^ (7 * i) ->
  uvarintFrom (putUvarintFrom fuel x ++ rest) i acc (7 * i) =
  (acc + x * 2 ^ (7 * i), i + Z.of_nat (length (putUvarintFrom fuel x))).
Proof.
  induction fuel as [|fuel IH]; intros x i acc rest Hi Hf Hx Hacc.
  - assert (i = 10) as -> by lia. simpl in Hx. lia.
  - assert (i <= 9) as Hi9 by lia.
    assert (2 ^ (7 * i) > 0) as Hpow by (apply Z.lt_gt, Z.pow_pos_nonneg; lia).
    cbn [putUvarintFrom]. destruct (Z.geb_spec x 128) as [Hbig|Hsmall].
    + (* a byte with the continuation bit *)
      assert (0 <= x mod 256 < 256) as Hm by (apply Z.mod_pos_bound; lia).
      destruct (byte_facts (Z.lor (x mod 256) 128)) as (Hb & _).
      { destruct (byte_facts (x mod 256) Hm) as (_ & ? & _). lia. }
      destruct (byte_facts (x mod 256) Hm) as (_ & Hrange & Hlow).
      cbn [app uvarintFrom].
      rewrite Hb. destruct (Z.ltb_spec (Z.lor (x mod 256) 128) 128); [lia|].
      rewrite Hlow.
      assert (x mod 256 mod 128 = x mod 128) as ->.
      { apply Z.mod_mod_divide. by exists 2. }
      assert (7 * i <= 56) as Hs.
      { destruct (Z.le_gt_cases (7 * i) 56) as [|Hgt]; [done|]. exfalso.
        assert (2 ^ (64 - 7 * i) <= 2 ^ 7) by (apply Z.pow_le_mono_r; lia).
        change (2 ^ 7) with 128 in *. lia. }
      assert (0 <= x mod 128 < 128) as Hm' by (apply Z.mod_pos_bound; lia).
      rewrite Z.shiftl_mul_pow2 by lia.
      assert (x mod 128 * 2 ^ (7 * i) < 2 ^ (7 * i + 7)) as Hlt.
      { rewrite Z.pow_add_r by lia. change (2 ^ 7) with 128. nia. }
      assert (2 ^ (7 * i + 7) <= 2 ^ 64) as Hle
        by (apply Z.pow_le_mono_r; lia).
      rewrite (Z.mod_small (x mod 128 * 2 ^ (7 * i))) by nia.
      rewrite lor_disjoint by lia.
      assert (2 ^ (7 * (i + 1)) = 128 * 2 ^ (7 * i)) as Hp7.
      { replace (7 * (i + 1)) with (7 + 7 * i) by lia.
        by rewrite Z.pow_add_r by lia. }
      replace (7 * i + 7) with (7 * (i + 1)) in * by lia.
      rewrite Z.shiftr_div_pow2 by lia. change (2 ^ 7) with 128.
      pose proof (Z.div_mod x 128) as Hdm.
      rewrite IH; [| lia | lia | | ].
      * f_equal; [|simpl length; lia]. rewrite Hp7. lia.
      * split; [apply Z.div_pos; lia|].
        apply Z.div_lt_upper_bound; [lia|].
        replace (64 - 7 * i) with (7 + (64 - 7 * (i + 1))) in Hx by lia.
        rewrite Z.pow_add_r in Hx by lia. change (2 ^ 7) with 128 in Hx. lia.
      * rewrite Hp7. nia.
    + (* the last byte *)
      destruct (byte_facts x) as (Hb & _); [lia|].
      cbn [app uvarintFrom]. rewrite Hb.
      destruct (Z.ltb_spec x 128); [|lia].
      assert (((i >? 9) || ((i =? 9) && (x >? 1))) = false) as ->.
      { destruct (Z.gtb_spec i 9); [lia|]. simpl.
        destruct (Z.eqb_spec i 9) as [->|]; [|done]. simpl.
        change (2 ^ (64 - 7 * 9)) with 2 in Hx.
        destruct (Z.gtb_spec x 1); [lia | done]. }
      rewrite Z.shiftl_mul_pow2 by lia.
      assert (x * 2 ^ (7 * i) < 2 ^ 64).
      { replace 64 with ((64 - 7 * i) + 7 * i) at 1 by lia.
        rewrite Z.pow_add_r by lia. nia. }
      rewrite Z.mod_small by nia. rewrite lor_disjoint by lia.
      f_equal.
Qed.

Lemma putUvarintFrom_length fuel x :
  (1 <= length (putUvarintFrom (S fuel) x) <= S fuel)%nat.
Proof.
  revert x. induction fuel as [|fuel IH]; intros x; cbn [putUvarintFrom];
    destruct (x >=? 128); simpl; try lia.
  specialize (IH (Z.shiftr x 7)). simpl in IH. lia.
Qed.

Lemma PutUvarint_length x :
  (1 <= length (PutUvarint x) <= MaxVarintLen64)%nat.
Proof. apply putUvarintFrom_length. Qed.

(** [binary.Uvarint] reads back what [binary.PutUvarint] wrote, whatever
    follows it. *)
Lemma Uvarint_PutUvarint x rest :
  0 <= x < 2 ^ 64 ->
  Uvarint (PutUvarint x ++ rest) = (x, Z.of_nat (length (PutUvarint x))).
Proof.
  intros Hx. unfold Uvarint, PutUvarint. change MaxVarintLen64 with 10%nat.
  assert (H := uvarint_put 10 x 0 0 rest ltac:(lia) ltac:(lia)
                 ltac:(simpl; lia) ltac:(simpl; lia)).
  change (7 * 0) with 0 in H. rewrite H. f_equal; lia.
Qed.

Lemma mapFile_cons body bodies :
  mapFile (body :: bodies) =
  PutUvarint (Z.of_nat (length body)) ++ body ++ mapFile bodies.
Proof. unfold mapFile. rewrite bind_cons. unfold frame. by rewrite <- app_assoc. Qed.

(** On a map file [readMapOutput] sends the entries of the bodies it comes to
    read, in their order, and closes the channel. *)
Lemma readLoop_mapFile Unmarshal bodies : forall fuel recs,
  (length (mapFile bodies) < fuel)%nat ->
  Forall (fun body => Z.of_nat (length body) < 2 ^ 63) bodies ->
  Forall2 (fun body me => Unmarshal body = Some me) bodies recs ->
  readLoop Unmarshal fuel (mapFile bodies) =
  {| delivered := take (length (readable bodies)) recs; closed := Ok tt |}.
Proof.
  induction bodies as [|body bodies IH]; intros fuel recs Hfuel Hlen HU.
  - destruct fuel as [|fuel]; [simpl in Hfuel; lia|].
    apply Forall2_nil_inv_l in HU as ->. done.
  - destruct fuel as [|fuel]; [lia|].
    apply Forall2_cons_inv_l in HU as (me & recs' & Hme & HU & ->).
    inversion Hlen as [|? ? Hb Hlen']; subst.
    cbn [readLoop readable]. unfold Peek.
    destruct (Nat.ltb_spec (length (mapFile (body :: bodies))) MaxVarintLen64)
      as [Hshort|Hlong]; [done|].
    rewrite mapFile_cons in *.
    pose proof (PutUvarint_length (Z.of_nat (length body))) as Hput.
    set (put := PutUvarint (Z.of_nat (length body))) in *.
    rewrite take_app_ge by lia.
    unfold put at 1. rewrite Uvarint_PutUvarint by lia. fold put.
    destruct (Z.leb_spec (Z.of_nat (length put)) 0) as [|_]; [lia|].
    rewrite Nat2Z.id, drop_app_length.
    destruct (Z.geb_spec (Z.of_nat (length body)) (2 ^ 63)) as [|_]; [lia|].
    rewrite length_app.
    destruct (Z.ltb_spec (Z.of_nat (length body + length (mapFile bodies)))
                (Z.of_nat (length body))) as [|_]; [lia|].
    rewrite Nat2Z.id, take_app_length, Hme, drop_app_length.
    rewrite (IH fuel recs'); [done | | done | done].
    rewrite !length_app in Hfuel. lia.
Qed.

Lemma readMapOutput_mapFile Unmarshal bodies recs :
  Forall (fun body => Z.of_nat (length body) < 2 ^ 63) bodies ->
  Forall2 (fun body me => Unmarshal body = Some me) bodies recs ->
  readMapOutput Unmarshal (mapFile bodies) =
  {| delivered := take (length (readable bodies)) recs; closed := Ok tt |}.
Proof. intros. apply readLoop_mapFile; [lia | done | done]. Qed.

(** Bodies of nine bytes or more are all read. *)
Lemma readable_long bodies :
  Forall (fun body => (9 <= length body)%nat) bodies -> readable bodies = bodies.
Proof.
  induction 1 as [|body bodies Hb _ IH]; [done|]. cbn [readable].
  rewrite mapFile_cons, !length_app.
  pose proof (PutUvarint_length (Z.of_nat (length body))).
  destruct (Nat.ltb_spec
              (length (PutUvarint (Z.of_nat (length body))) +
               (length body + length (mapFile bodies))) MaxVarintLen64)
    as [Hlt|_]; [unfold MaxVarintLen64 in Hlt; lia|].
  by rewrite IH.
Qed.

(** X9.  A map file whose records are serialized in nine bytes or more each:
    [readMapOutput] sends every record, in the order of the file, and closes
    the channel. *)
Lemma readMapOutput_long Unmarshal bodies recs :
  Forall (fun body => (9 <= length body)%nat /\ Z.of_nat (length body) < 2 ^ 63)
    bodies ->
  Forall2 (fun body me => Unmarshal body = Some me) bodies recs ->
  readMapOutput Unmarshal (mapFile bodies) =
  {| delivered := recs; closed := Ok tt |}.
Proof.
  intros Hb HU.
  rewrite (readMapOutput_mapFile Unmarshal bodies recs); [| |done].
  - rewrite readable_long.
    + by rewrite (Forall2_length _ _ _ HU), firstn_all.
    + eapply Forall_impl; [exact Hb|]. by intros b [? _].
  - eapply Forall_impl; [exact Hb|]. by intros b [_ ?].
Qed.

Lemma readMapOutput_long_witness :
  readMapOutput (fun body => Some {| Key := body; Payload := [] |})
    (mapFile [[x61; x62; x63; x64; x65; x66; x67; x68; x69];
              [x62; x62; x63; x64; x65; x66; x67; x68; x69]]) =
  {| delivered :=
       [ {| Key := [x61; x62; x63; x64; x65; x66; x67; x68; x69];
            Payload := [] |};
         {| Key := [x62; x62; x63; x64; x65; x66; x67; x68; x69];
            Payload := [] |} ];
     closed := Ok tt |}.
Proof.
  apply (readMapOutput_long (fun body => Some {| Key := body; Payload := [] |})
           [[x61; x62; x63; x64; x65; x66; x67; x68; x69];
            [x62; x62; x63; x64; x65; x66; x67; x68; x69]]).
  - repeat constructor; simpl; lia.
  - by repeat constructor.
Defined.

(** * The balancer *)

#[local] Instance smaller_total {A} (size : A -> Z) : Total (smaller size).
Proof. intros a b. unfold smaller. lia. Qed.
#[local] Instance smaller_trans {A} (size : A -> Z) : Transitive (smaller size).
Proof. intros a b c. unfold smaller. lia. Qed.
#[local] Instance larger_total {A} (size : A -> Z) : Total (larger size).
Proof. intros a b. unfold larger. lia. Qed.
#[local] Instance larger_trans {A} (size : A -> Z) : Transitive (larger size).
Proof. intros a b c. unfold larger. lia. Qed.

Lemma sortBySize_perm {A} (size : A -> Z) dirs asc :
  sortBySize size dirs asc ≡ₚ dirs.
Proof. unfold sortBySize. destruct asc; apply merge_sort_Permutation. Qed.

Lemma sortBySize_least {A} (size : A -> Z) dirs r0 rs :
  sortBySize size dirs true = r0 :: rs ->
  Forall (fun r => size r0 <= size r) dirs.
Proof.
  intros E. rewrite <- (sortBySize_perm size dirs true), E.
  constructor; [lia|].
  pose proof (StronglySorted_merge_sort (smaller size) dirs) as Hs.
  unfold sortBySize in E. rewrite E in Hs. by inversion Hs.
Qed.

Lemma sizes_app l1 l2 : sizes (l1 ++ l2) = sizes l1 + sizes l2.
Proof. induction l1 as [|m l1 IH]; simpl; lia. Qed.

Lemma sizes_perm l1 l2 : l1 ≡ₚ l2 -> sizes l1 = sizes l2.
Proof. induction 1; simpl; lia. Qed.

Lemma holdings_cons r rs : holdings (r :: rs) = moved r ++ holdings rs.
Proof. done. Qed.

Lemma holdings_perm rs1 rs2 : rs1 ≡ₚ rs2 -> holdings rs1 ≡ₚ holdings rs2.
Proof. intros P. unfold holdings. by rewrite P. Qed.

(** The smallest of [n] shards holds at most the [n]-th part. *)
Lemma least_share r0 (rs : list reduceShard) :
  Forall (fun r => treeSize r0 <= treeSize r) rs ->
  Z.of_nat (length rs) * treeSize r0 <= sizes (holdings rs).
Proof.
  induction 1 as [|r rs Hr _ IH]; [simpl; lia|].
  rewrite holdings_cons, sizes_app. fold (treeSize r).
  simpl length. lia.
Qed.

Lemma largest_bound shards :
  Forall (fun m => 0 <= shardSize m) shards ->
  Forall (fun m => 0 <= shardSize m <= largest shards) shards.
Proof.
  induction 1 as [|m l Hm _ IH]; constructor; simpl.
  - lia.
  - eapply Forall_impl; [exact IH|]. simpl. lia.
Qed.

Lemma sizes_nonneg shards :
  Forall (fun m => 0 <= shardSize m) shards -> 0 <= sizes shards.
Proof. induction 1; simpl; lia. Qed.

Lemma moveShards_spec T M mapShards : forall rs,
  rs <> [] ->
  Forall (fun m => 0 <= shardSize m <= M) mapShards ->
  sizes (holdings rs) + sizes mapShards <= T ->
  Forall (fun r => treeSize r <= T / Z.of_nat (length rs) + M) rs ->
  exists rs', moveShards mapShards rs = (rs', Ok tt) /\
    shardIndex <$> rs' ≡ₚ shardIndex <$> rs /\
    holdings rs' ≡ₚ holdings rs ++ mapShards /\
    Forall (fun r => treeSize r <= T / Z.of_nat (length rs) + M) rs'.
Proof.
  induction mapShards as [|shard mapShards IH]; intros rs Hne HM HT Hb.
  - exists rs. by rewrite app_nil_r.
  - inversion HM as [|? ? [Hs0 HsM] HM']; subst. simpl in HT.
    pose proof (sizes_nonneg mapShards) as Hnn.
    assert (0 <= sizes mapShards) as Hrest.
    { apply Hnn. eapply Forall_impl; [exact HM'|]. simpl. lia. }
    cbn [moveShards].
    pose proof (sortBySize_perm treeSize rs true) as P.
    destruct (sortBySize treeSize rs true) as [|r0 rs0] eqn:E.
    { apply Permutation_nil_l in P. done. }
    pose proof (sortBySize_least treeSize rs r0 rs0 E) as Hmin.
    assert (length rs = S (length rs0)) as Hlen.
    { by rewrite <- P. }
    assert (treeSize r0 <= T / Z.of_nat (length rs)) as Hr0.
    { apply Z.div_le_lower_bound; [lia|].
      pose proof (least_share r0 rs Hmin). lia. }
    assert (sizes (holdings rs) = treeSize r0 + sizes (holdings rs0)) as Hsum.
    { rewrite <- (sizes_perm _ _ (holdings_perm _ _ P)), holdings_cons.
      by rewrite sizes_app. }
    destruct (IH (rename shard r0 :: rs0)) as (rs' & -> & Pi & Ph & Hb');
      [done | done | | | ].
    + rewrite holdings_cons. simpl. rewrite !sizes_app.
      fold (treeSize r0). simpl. lia.
    + simpl length. rewrite <- Hlen. constructor.
      * unfold treeSize, rename. simpl. rewrite sizes_app. simpl.
        fold (treeSize r0). lia.
      * rewrite <- P in Hb. by inversion Hb.
    + exists rs'. split; [done|]. split; [|split].
      * rewrite Pi, <- P. done.
      * rewrite Ph, <- (holdings_perm _ _ P), !holdings_cons. simpl.
        rewrite <- !app_assoc. f_equiv.
        rewrite (Permutation_app_comm [shard]), <- app_assoc.
        f_equiv. symmetry. apply Permutation_cons_append.
      * simpl length in Hb'. by rewrite Hlen.
Qed.

Lemma moveShards_runs mapShards : forall rs,
  rs <> [] ->
  exists rs', moveShards mapShards rs = (rs', Ok tt) /\
    length rs' = length rs /\ holdings rs' ≡ₚ holdings rs ++ mapShards.
Proof.
  induction mapShards as [|shard mapShards IH]; intros rs Hne.
  - exists rs. by rewrite app_nil_r.
  - cbn [moveShards].
    pose proof (sortBySize_perm treeSize rs true) as P.
    destruct (sortBySize treeSize rs true) as [|r0 rs0] eqn:E.
    { apply Permutation_nil_l in P. done. }
    destruct (IH (rename shard r0 :: rs0)) as (rs' & -> & Hl & Ph); [done|].
    exists rs'. split; [done|]. split.
    + rewrite Hl, <- P. done.
    + rewrite Ph, <- (holdings_perm _ _ P), !holdings_cons. simpl.
      rewrite <- !app_assoc. f_equiv.
      rewrite (Permutation_app_comm [shard]), <- app_assoc.
      f_equiv. symmetry. apply Permutation_cons_append.
Qed.

Lemma holdings_empty n : holdings (emptyShards n) = [].
Proof.
  unfold emptyShards. generalize 0%nat.
  induction n as [|n IH]; intros k; [done|]. simpl. apply IH.
Qed.

Lemma emptyShards_index n : shardIndex <$> emptyShards n = seq 0 n.
Proof.
  unfold emptyShards. rewrite <- list_fmap_compose.
  induction (seq 0 n) as [|i l IH]; [done|]. simpl. by f_equal.
Qed.

Lemma sizes_largest_nonneg shards :
  Forall (fun m => 0 <= shardSize m) shards ->
  0 <= sizes shards /\ 0 <= largest shards.
Proof. induction 1; simpl; lia. Qed.

Lemma balancer_spec N tmpDir :
  1 <= N -> Forall (fun m => 0 <= shardSize m) tmpDir ->
  exists rs, mergeMapShardsIntoReduceShards N tmpDir = (rs, Ok tt) /\
    shardIndex <$> rs ≡ₚ seq 0 (Z.to_nat N) /\
    holdings rs ≡ₚ tmpDir /\
    Forall (fun r => treeSize r <= sizes tmpDir / N + largest tmpDir) rs.
Proof.
  intros HN Hnn. unfold mergeMapShardsIntoReduceShards, shardDirs.
  fold (emptyShards (Z.to_nat N)).
  pose proof (sortBySize_perm shardSize tmpDir false) as P.
  destruct (sizes_largest_nonneg tmpDir Hnn) as [HT HM].
  assert (length (emptyShards (Z.to_nat N)) = Z.to_nat N) as Hlen.
  { unfold emptyShards. by rewrite length_fmap, length_seq. }
  destruct (moveShards_spec (sizes tmpDir) (largest tmpDir)
              (sortBySize shardSize tmpDir false) (emptyShards (Z.to_nat N)))
    as (rs & -> & Pi & Ph & Hb).
  - destruct (Z.to_nat N) eqn:E; [lia | done].
  - rewrite P. by apply largest_bound.
  - rewrite holdings_empty, (sizes_perm _ _ P). change (sizes []) with 0. lia.
  - rewrite Hlen, Z2Nat.id by lia. apply Forall_forall. intros r Hr.
    apply list_elem_of_fmap in Hr as (i & -> & _). unfold treeSize. simpl.
    assert (0 <= sizes tmpDir / N) by (apply Z.div_pos; lia). lia.
  - exists rs. split; [done|]. split; [|split].
    + by rewrite Pi, emptyShards_index.
    + by rewrite Ph, holdings_empty, P.
    + by rewrite Hlen, Z2Nat.id in Hb by lia.
Qed.

Lemma balancer_runs N tmpDir :
  1 <= N ->
  exists rs, mergeMapShardsIntoReduceShards N tmpDir = (rs, Ok tt) /\
    length rs = Z.to_nat N /\ holdings rs ≡ₚ tmpDir.
Proof.
  intros HN. unfold mergeMapShardsIntoReduceShards, shardDirs.
  fold (emptyShards (Z.to_nat N)).
  destruct (moveShards_runs (sortBySize shardSize tmpDir false)
              (emptyShards (Z.to_nat N))) as (rs & -> & Hl & Ph).
  - destruct (Z.to_nat N) eqn:E; [lia | done].
  - exists rs. split; [done|]. split.
    + rewrite Hl. unfold emptyShards. by rewrite length_fmap, length_seq.
    + by rewrite Ph, holdings_empty, sortBySize_perm.
Qed.

(** ** The checks of [run] *)

Lemma prepare_mismatch opt tmpDir :
  Z.of_nat (length (shardOutputDirs opt)) <> ReduceShards opt ->
  (forall dirs, (prepare opt tmpDir).2 <> Prepared dirs) /\
  (1 <= ReduceShards opt ->
   (prepare opt tmpDir).2 = Asserted 32 /\
   holdings (prepare opt tmpDir).1 ≡ₚ tmpDir).
Proof.
  intros Hne. unfold prepare. split.
  - intros dirs.
    destruct (mergeMapShardsIntoReduceShards _ _) as [tmp' [[]| |]]; simpl;
      try done.
    destruct (Z.eqb_spec (Z.of_nat (length (shardDirs treeSize tmp')))
                (ReduceShards opt)); simpl; [|done].
    destruct (Z.eqb_spec (Z.of_nat (length (shardOutputDirs opt)))
                (ReduceShards opt)); simpl; done.
  - intros HN.
    destruct (balancer_runs (ReduceShards opt) tmpDir HN) as (rs & -> & Hl & Ph).
    assert (Z.of_nat (length (shardDirs treeSize rs)) = ReduceShards opt) as ->.
    { unfold shardDirs. rewrite sortBySize_perm, Hl. lia. }
    rewrite Z.eqb_refl. simpl.
    destruct (Z.eqb_spec (Z.of_nat (length (shardOutputDirs opt)))
                (ReduceShards opt)); simpl; done.
Qed.

(** * The driver *)

Lemma tally_app f ws1 ws2 : tally f (ws1 ++ ws2) = (tally f ws1 + tally f ws2)%nat.
Proof. apply sum_list_with_app. Qed.

Lemma tally_insert f ws k w w' :
  ws !! k = Some w ->
  (tally f (<[k := w']> ws) + f w = tally f ws + f w')%nat.
Proof.
  revert k. induction ws as [|x ws IH]; intros [|k] H; simpl in *; try done.
  - injection H as ->. unfold tally. simpl. lia.
  - specialize (IH k H). unfold tally in *. simpl. lia.
Qed.


Lemma tally_all_gone ws :
  tally gone ws = length ws -> Forall (fun w => w = Gone) ws.
Proof.
  unfold tally. induction ws as [|w ws IH]; simpl; [constructor|].
  assert (sum_list_with gone ws <= length ws)%nat as Hle.
  { clear. induction ws as [|w ws IH]; simpl; [lia|]. destruct w; simpl; lia. }
  intros H. destruct w; simpl in H; try lia.
  constructor; [done|]. apply IH. lia.
Qed.

Lemma Forall_insert_gone ws k w :
  Forall (fun w => w = Gone) ws -> ws !! k = Some w -> w = Gone.
Proof. rewrite Forall_lookup. eauto. Qed.

Lemma sound_boot opt :
  0 <= ReduceShards opt -> 0 <= NumShufflers opt -> sound opt (boot opt).
Proof. intros HN HK. split; simpl; try done; lia. Qed.

Lemma progress_length opt s :
  progress opt s -> Z.of_nat (length (tasks s)) <= ReduceShards opt.
Proof. unfold progress. destruct (main s); lia. Qed.

Lemma sound_halt opt s :
  sound opt s -> main s <> Returned -> sound opt (halt s).
Proof.
  intros [Hp Hb Hw Hg Hc] Hm. split; simpl; try done.
  - destruct (main s); simpl in Hp; lia.
  - unfold progress at 1. simpl. by apply progress_length.
  - by destruct (main s).
Qed.

(** A step of a goroutine keeps each part of [sound], whatever [run] is at. *)
Ltac worker_step Hg Hk :=
  split; unfold progress; simpl; rewrite ?length_insert; try done; try lia;
  match goal with
  | |- context [main ?s] =>
      destruct (main s); simpl in *; try done; try lia;
      destruct Hg as [_ Hg]; by pose proof (Forall_insert_gone _ _ _ Hg Hk)
  end.

Lemma sound_step opt s s' : sound opt s -> step opt s s' -> sound opt s'.
Proof.
  intros Hs Hstep. pose proof Hs as [Hp Hb Hw Hg Hc]. unfold progress in Hg.
  inversion Hstep as
    [i ? Hm Hi Hroom | i k ? Hm Hi Hz Hk | i ? Hm | i ? Hm Hi | ? Hm Hz
    | ? Hm | k ? Ha Hk | k ? Ha Hk | k ? Ha Hk Hpos | k ? Ha Hk
    | i ? Hm | k w ? Ha Hk Hw']; subst; clear Hstep;
    rewrite ?Hm in *; simpl in *.
  - (* pending <- struct{}{} *)
    split; unfold progress; simpl; try done; lia.
  - (* the same, handed to a receiver *)
    pose proof (tally_insert holding _ k _ Finishing Hk) as Hh. simpl in Hh. lia.
  - (* go func() *)
    assert (tally holding [Merging] = 1%nat) as H1 by done.
    assert (tally gone [Merging] = 0%nat) as H0 by done.
    split; unfold progress; simpl; rewrite ?tally_app, ?length_app, ?H1, ?H0;
      simpl; try done; lia.
  - (* the loop ends *)
    split; unfold progress; simpl; try done; lia.
  - (* wg.Wait() returns *)
    split; unfold progress; simpl; try done. split; [done|].
    apply tally_all_gone. lia.
  - (* close(s.output) *)
    split; unfold progress; simpl; try done. lia.
  - (* shufflePostings returns *)
    pose proof (tally_insert holding _ k _ Waiting Hk) as Hh.
    pose proof (tally_insert gone _ k _ Waiting Hk) as Hgo. simpl in Hh, Hgo.
    worker_step Hg Hk.
  - (* ci.wait() returns *)
    pose proof (tally_insert holding _ k _ Releasing Hk) as Hh.
    pose proof (tally_insert gone _ k _ Releasing Hk) as Hgo. simpl in Hh, Hgo.
    worker_step Hg Hk.
  - (* <-pending *)
    pose proof (tally_insert holding _ k _ Finishing Hk) as Hh.
    pose proof (tally_insert gone _ k _ Finishing Hk) as Hgo. simpl in Hh, Hgo.
    worker_step Hg Hk.
  - (* wg.Done() *)
    pose proof (tally_insert holding _ k _ Gone Hk) as Hh.
    pose proof (tally_insert gone _ k _ Gone Hk) as Hgo. simpl in Hh, Hgo.
    worker_step Hg Hk.
  - (* x.Check *)
    apply sound_halt; [done|]. by rewrite Hm.
  - (* a panic or a fatal error in a goroutine *)
    apply sound_halt; [done|]. intros Hr. rewrite Hr in Hg.
    destruct Hg as [_ Hg]. pose proof (Forall_insert_gone _ _ _ Hg Hk).
    by destruct Hw'; subst.
Qed.

(** Without a shuffler, [run] stays at its first [pending <- struct{}{}]. *)
Lemma run_stuck opt s :
  NumShufflers opt = 0 -> 1 <= ReduceShards opt ->
  rtc (step opt) (boot opt) s -> s = boot opt.
Proof.
  intros HK HN Hr. eapply (rtc_ind_r (fun s => s = boot opt)); [done | | exact Hr].
  intros s1 s2 _ Hstep ->.
  inversion Hstep; simplify_eq/=; lia.
Qed.

Lemma adjacent_nil {A} (R : A -> A -> Prop) : adjacent R [].
Proof. intros i a b Ha. by rewrite lookup_nil in Ha. Qed.

Lemma adjacent_cons {A} (R : A -> A -> Prop) x l :
  adjacent R (x :: l) <-> (forall y, head l = Some y -> R x y) /\ adjacent R l.
Proof.
  split.
  - intros H. split.
    + intros y Hy. apply (H 0%nat); [done|]. by destruct l; simplify_eq.
    + intros i a b Ha Hb. by apply (H (S i)).
  - intros [Hh Hl] [|i] a b Ha Hb; simpl in *.
    + injection Ha as <-. apply Hh. by destruct l; simplify_eq.
    + by apply (Hl i).
Qed.

Lemma nondecreasing_sorted l : nondecreasing l <-> StronglySorted ekle l.
Proof.
  unfold nondecreasing. split.
  - induction l as [|x l IH]; [constructor|].
    intros [Hh Hl]%adjacent_cons. specialize (IH Hl). constructor; [done|].
    destruct l as [|y l]; [done|].
    assert (ekle x y) as Hxy by (by apply (Hh y)).
    constructor; [done|]. inversion IH as [|? ? _ F]; subst.
    eapply Forall_impl; [exact F|]. intros z Hz.
    by apply kle_trans with (Key y).
  - induction 1 as [|x l _ IH F]; [apply adjacent_nil|].
    apply adjacent_cons. split; [|done].
    intros y Hy. destruct l as [|m l]; [done|]. simpl in Hy.
    injection Hy as ->. by inversion F.
Qed.

Lemma nondecreasing_streams (chs : list chan) :
  Forall nondecreasing chs -> Forall (StronglySorted ekle) chs.
Proof.
  intros F. eapply Forall_impl; [exact F|]. intros l. apply nondecreasing_sorted.
Qed.

(** C1.  Whatever streams in key order [shufflePostings] is given, the
    entries of the batches it sends, taken in the order they are sent, are in
    key order under [bytes.Compare].  The merge never runs short of turns, and
    when no stream is closed from the start it returns after it sent every
    entry of every stream. *)
Theorem shufflePostings_sorted (mapEntryChs : list chan) :
  Forall nondecreasing mapEntryChs ->
  nondecreasing (concat (sent (shufflePostings mapEntryChs))) /\
  exit (shufflePostings mapEntryChs) <> OutOfFuel /\
  (Forall (fun c => c <> []) mapEntryChs ->
   exit (shufflePostings mapEntryChs) = Ok tt /\
   concat (sent (shufflePostings mapEntryChs)) ≡ₚ concat mapEntryChs).
Proof.
  intros Hs%nondecreasing_streams. unfold shufflePostings.
  destruct (shuffle_cases batchSize mapEntryChs)
    as [[Hin ->]|(F & recs & -> & P & Sr)].
  - split; [apply adjacent_nil|]. split; [done|]. intros F.
    rewrite Forall_forall in F. by destruct (F [] Hin).
  - destruct (merged_batches batchSize recs) as [Hall _ _ _]; [done|].
    rewrite Hall. split; [by apply nondecreasing_sorted, Sr|]. by split.
Qed.

Lemma three_streams_sorted : Forall nondecreasing threeStreams.
Proof.
  repeat constructor; apply nondecreasing_sorted; repeat constructor;
    by vm_compute.
Qed.

Lemma shufflePostings_sorted_witness :
  Forall nondecreasing threeStreams /\
  nondecreasing (concat (sent (shufflePostings threeStreams))) /\
  exit (shufflePostings threeStreams) <> OutOfFuel /\
  (Forall (fun c => c <> []) threeStreams ->
   exit (shufflePostings threeStreams) = Ok tt /\
   concat (sent (shufflePostings threeStreams)) ≡ₚ concat threeStreams).
Proof.
  split; [exact three_streams_sorted|].
  apply (shufflePostings_sorted threeStreams). exact three_streams_sorted.
Defined.

(** C2.  Whatever streams in key order [shufflePostings] is given, no two
    batches it sends hold entries of the same key; a batch is followed by
    another only when it has reached [batchSize] entries and the next one
    starts with another key than it ends with; and when no stream is closed
    from the start, every entry of every stream is in a batch. *)
Theorem shufflePostings_groups (mapEntryChs : list chan) :
  Forall nondecreasing mapEntryChs ->
  (forall i j x y r s,
     sent (shufflePostings mapEntryChs) !! i = Some x ->
     sent (shufflePostings mapEntryChs) !! j = Some y ->
     r ∈ x -> s ∈ y -> Key r = Key s -> i = j) /\
  (forall i x y,
     sent (shufflePostings mapEntryChs) !! i = Some x ->
     sent (shufflePostings mapEntryChs) !! S i = Some y ->
     batchSize <= Z.of_nat (length x) /\ boundary x y) /\
  (Forall (fun c => c <> []) mapEntryChs ->
   concat (sent (shufflePostings mapEntryChs)) ≡ₚ concat mapEntryChs).
Proof.
  intros Hs%nondecreasing_streams. unfold shufflePostings.
  destruct (shuffle_cases batchSize mapEntryChs)
    as [[Hin ->]|(F & recs & -> & P & Sr)].
  - split; [by intros i j x y r s Hx|]. split; [by intros i x y Hx|].
    intros F. rewrite Forall_forall in F. by destruct (F [] Hin).
  - destruct (merged_batches batchSize recs) as [Hall Hne Hcut Hsz]; [done|].
    split; [|split].
    + intros i j x y r s Hx Hy Hr Hsy E.
      eapply batches_disjoint; try done. rewrite Hall. by apply Sr.
    + intros i x y Hx Hy. split; [|by apply (Hcut i)].
      apply (Hsz i x Hx). by apply lookup_lt_Some in Hy.
    + intros _. by rewrite Hall.
Qed.

Lemma shufflePostings_groups_witness :
  Forall nondecreasing threeStreams /\
  (forall i j x y r s,
     sent (shufflePostings threeStreams) !! i = Some x ->
     sent (shufflePostings threeStreams) !! j = Some y ->
     r ∈ x -> s ∈ y -> Key r = Key s -> i = j) /\
  (forall i x y,
     sent (shufflePostings threeStreams) !! i = Some x ->
     sent (shufflePostings threeStreams) !! S i = Some y ->
     batchSize <= Z.of_nat (length x) /\ boundary x y) /\
  (Forall (fun c => c <> []) threeStreams ->
   concat (sent (shufflePostings threeStreams)) ≡ₚ concat threeStreams).
Proof.
  split; [exact three_streams_sorted|].
  apply (shufflePostings_groups threeStreams). exact three_streams_sorted.
Defined.

(** The batches of the three streams above with a threshold of two entries:
    the batch of the [a]s is full when [b] comes. *)
Example shuffle_three_streams :
  shuffle 2 threeStreams =
  {| sent := [[entry "a"; entry "a"]; [entry "b"; entry "c"; entry "c"]];
     reported := [(bytes "a", 2); (bytes "b", 1); (bytes "c", 2)];
     exit := Ok tt |}.
Proof. by vm_compute. Qed.

(** X6.  When no stream is closed from the start and the streams are in key
    order, [ci.addUid] is called once for every key there is, with the number
    of entries of that key in all streams together, and for no other key. *)
Lemma shufflePostings_counts (mapEntryChs : list chan) (k : list byte) :
  Forall nondecreasing mapEntryChs ->
  Forall (fun c => c <> []) mapEntryChs ->
  Z.of_nat (length (concat mapEntryChs)) < 2 ^ 63 ->
  exit (shufflePostings mapEntryChs) = Ok tt /\
  filter (fun p => p.1 = k) (reported (shufflePostings mapEntryChs)) =
  if 0 <? keyCount k (concat mapEntryChs)
  then [(k, keyCount k (concat mapEntryChs))] else [].
Proof.
  intros Hs%nondecreasing_streams F Hlen. unfold shufflePostings.
  destruct (shuffle_merges batchSize mapEntryChs F) as (recs & -> & P & Sr).
  split; [done|]. rewrite <- (keyCount_perm k _ _ P).
  apply counts_once, merged_counts; [by apply Sr|]. by rewrite P.
Qed.

(** X7.  And at any turn of the loop, a count that was reported is the number
    of entries of its key in all streams: the loop had taken them all. *)
Lemma shufflePostings_counts_late (mapEntryChs : list chan) ph (turn : nat) :
  Forall nondecreasing mapEntryChs ->
  Forall (fun c => c <> []) mapEntryChs ->
  Z.of_nat (length (concat mapEntryChs)) < 2 ^ 63 ->
  fill [] mapEntryChs = Ok ph ->
  Forall (fun p => p.2 = keyCount p.1 (concat mapEntryChs))
    (counted (mergeLoop batchSize turn ph start).1).
Proof.
  intros Hs%nondecreasing_streams F Hlen Hfill.
  destruct (fill_spec mapEntryChs []) as (ph' & E & L & HO & P); [| |done|].
  { intros i Hi. simpl in Hi. lia. }
  { intros c Hc. simpl in Hc. lia. }
  rewrite Hfill in E. injection E as <-. simpl in P.
  assert (contents ph ≡ₚ concat mapEntryChs) as Pc.
  { rewrite <- contents_first. unfold contents. by rewrite P. }
  destruct (mergeLoop_any batchSize turn ph start L HO)
    as (done & todo & e & -> & Pd & Sd). simpl.
  assert (done ++ todo ≡ₚ concat mapEntryChs) as Pa by (by rewrite Pd).
  eapply Forall_impl.
  - apply counted_final; [|by rewrite Pa].
    apply Sd. rewrite P. by apply nodeSorted_first.
  - intros p [Hp _]. by rewrite <- (keyCount_perm _ _ _ Pa).
Qed.

Lemma shufflePostings_counts_witness :
  (Forall nondecreasing threeStreams /\
   Forall (fun c => c <> []) threeStreams /\
   Z.of_nat (length (concat threeStreams)) < 2 ^ 63) /\
  exit (shufflePostings threeStreams) = Ok tt /\
  filter (fun p => p.1 = bytes "c") (reported (shufflePostings threeStreams)) =
  if 0 <? keyCount (bytes "c") (concat threeStreams)
  then [(bytes "c", keyCount (bytes "c") (concat threeStreams))] else [].
Proof.
  assert (Forall (fun c : list MapEntry => c <> []) threeStreams) as F
    by (by repeat constructor).
  assert (Z.of_nat (length (concat threeStreams)) < 2 ^ 63) as Hlen
    by (by vm_compute).
  split; [by split; [exact three_streams_sorted|]|].
  apply (shufflePostings_counts threeStreams (bytes "c"));
    [exact three_streams_sorted | exact F | exact Hlen].
Defined.

Lemma shufflePostings_counts_late_witness :
  (Forall nondecreasing threeStreams /\
   Forall (fun c => c <> []) threeStreams /\
   Z.of_nat (length (concat threeStreams)) < 2 ^ 63 /\
   fill [] threeStreams =
     Ok [ {| mapEntry := Some (entry "a"); ch := [entry "c"] |};
          {| mapEntry := Some (entry "b"); ch := [entry "c"] |};
          {| mapEntry := Some (entry "a"); ch := [] |} ]) /\
  Forall (fun p => p.2 = keyCount p.1 (concat threeStreams))
    (counted (mergeLoop batchSize 3
       [ {| mapEntry := Some (entry "a"); ch := [entry "c"] |};
         {| mapEntry := Some (entry "b"); ch := [entry "c"] |};
         {| mapEntry := Some (entry "a"); ch := [] |} ] start).1).
Proof.
  assert (Forall (fun c : list MapEntry => c <> []) threeStreams) as F
    by (by repeat constructor).
  assert (Z.of_nat (length (concat threeStreams)) < 2 ^ 63) as Hlen
    by (by vm_compute).
  assert (fill [] threeStreams =
     Ok [ {| mapEntry := Some (entry "a"); ch := [entry "c"] |};
          {| mapEntry := Some (entry "b"); ch := [entry "c"] |};
          {| mapEntry := Some (entry "a"); ch := [] |} ]) as Hfill
    by (by vm_compute).
  split; [by split; [exact three_streams_sorted|]|].
  apply (shufflePostings_counts_late threeStreams);
    [exact three_streams_sorted | exact F | exact Hlen | exact Hfill].
Defined.

(** C3.  With one stream of a single entry of key [a] and one stream closed
    from the start, both in key order, [shufflePostings] panics in
    [heap.Push] ([Less] reads the key of the nil entry): [ci.addUid] is
    called for no key, though [a] has an entry. *)
Theorem shufflePostings_count_lost :
  Forall nondecreasing [[entry "a"]; []] /\
  keyCount (bytes "a") (concat [[entry "a"]; []]) = 1 /\
  reported (shufflePostings [[entry "a"]; []]) = [] /\
  exit (shufflePostings [[entry "a"]; []]) = Panic.
Proof.
  split; [|by vm_compute].
  repeat constructor; apply nondecreasing_sorted; repeat constructor.
Qed.

(** C4.  A map file of one entry whose serialization takes three bytes (a
    four-byte file): [r.Peek(10)] returns [io.EOF] with the four bytes, so
    [readMapOutput] closes the channel without sending the entry, whatever
    [proto.Unmarshal] would make of it. *)
Theorem readMapOutput_short_tail (Unmarshal : list byte -> option MapEntry) :
  mapFile [[x0a; x01; x61]] = [x03; x0a; x01; x61] /\
  readMapOutput Unmarshal (mapFile [[x0a; x01; x61]]) =
  {| delivered := []; closed := Ok tt |}.
Proof. by vm_compute. Qed.

(** C5.  A map file without entries gives a channel that is closed at once;
    but on a single channel that is closed from the start [shufflePostings]
    panics ([me.Key] on the nil entry), and so it does on any channels one of
    which is closed from the start. *)
Theorem shufflePostings_all_closed (Unmarshal : list byte -> option MapEntry) :
  readMapOutput Unmarshal [] = {| delivered := []; closed := Ok tt |} /\
  shufflePostings [[]] = {| sent := []; reported := []; exit := Panic |} /\
  forall chs : list (list MapEntry),
    [] ∈ chs ->
    shufflePostings chs = {| sent := []; reported := []; exit := Panic |}.
Proof.
  split; [done|]. split; [done|]. intros chs Hin.
  by apply shuffle_empty_stream.
Qed.

(** C6.  For a reduce shard count of at least one and map shards of sizes
    that are not negative, [mergeMapShardsIntoReduceShards] returns with the
    reduce shards [shard_0] to [shard_(N-1)], every map shard in one of them,
    and none of them larger than the [N]-th part of all sizes plus the
    largest size. *)
Theorem balancer_bound (N : Z) (tmpDir : list mapShard) :
  1 <= N -> Forall (fun m => 0 <= shardSize m) tmpDir ->
  (mergeMapShardsIntoReduceShards N tmpDir).2 = Ok tt /\
  shardIndex <$> (mergeMapShardsIntoReduceShards N tmpDir).1
    ≡ₚ seq 0 (Z.to_nat N) /\
  holdings (mergeMapShardsIntoReduceShards N tmpDir).1 ≡ₚ tmpDir /\
  Forall (fun r => treeSize r <= sizes tmpDir / N + largest tmpDir)
    (mergeMapShardsIntoReduceShards N tmpDir).1.
Proof.
  intros HN Hnn.
  by destruct (balancer_spec N tmpDir HN Hnn) as (rs & -> & ? & ? & ?).
Qed.

Lemma balancer_bound_witness :
  (1 <= 2 /\ Forall (fun m => 0 <= shardSize m) fourShards) /\
  (mergeMapShardsIntoReduceShards 2 fourShards).2 = Ok tt /\
  shardIndex <$> (mergeMapShardsIntoReduceShards 2 fourShards).1
    ≡ₚ seq 0 (Z.to_nat 2) /\
  holdings (mergeMapShardsIntoReduceShards 2 fourShards).1 ≡ₚ fourShards /\
  Forall (fun r => treeSize r <= sizes fourShards / 2 + largest fourShards)
    (mergeMapShardsIntoReduceShards 2 fourShards).1.
Proof.
  assert (Forall (fun m => 0 <= shardSize m) fourShards) as Hnn
    by (repeat constructor; by vm_compute).
  split; [split; [lia | exact Hnn]|].
  apply (balancer_bound 2 fourShards); [lia | exact Hnn].
Defined.

(** C7.  Four map shards of sizes 10, 9, 5 and 5, in whatever order [TmpDir]
    lists them, and two reduce shards: one reduce shard gets the shards of
    sizes 10 and 5, the other those of sizes 9 and 5, so they hold 15 and
    14. *)
Theorem balancer_example (tmpDir : list mapShard) :
  tmpDir ≡ₚ fourShards ->
  (mergeMapShardsIntoReduceShards 2 tmpDir).2 = Ok tt /\
  (fun r => shardSize <$> moved r)
    <$> (mergeMapShardsIntoReduceShards 2 tmpDir).1 = [[10; 5]; [9; 5]] /\
  treeSize <$> (mergeMapShardsIntoReduceShards 2 tmpDir).1 = [15; 14].
Proof.
  intros P. symmetry in P. apply permutations_Permutation in P.
  revert tmpDir P. apply Forall_forall. vm_compute.
  repeat (constructor; [done|]). constructor.
Qed.

Lemma balancer_example_witness :
  fourShards ≡ₚ fourShards /\
  (mergeMapShardsIntoReduceShards 2 fourShards).2 = Ok tt /\
  (fun r => shardSize <$> moved r)
    <$> (mergeMapShardsIntoReduceShards 2 fourShards).1 = [[10; 5]; [9; 5]] /\
  treeSize <$> (mergeMapShardsIntoReduceShards 2 fourShards).1 = [15; 14].
Proof. split; [done|]. apply (balancer_example fourShards). done. Defined.

(** C8 as stated fails: with one reduce shard and no output directory
    configured, [run] stops at the assertion of line 32, and by then the map
    shard has been renamed into [shard_0]. *)
Lemma run_checks_late :
  Z.of_nat (length (shardOutputDirs noOutputDir)) <> ReduceShards noOutputDir /\
  (prepare noOutputDir oneShard).2 = Asserted 32 /\
  (prepare noOutputDir oneShard).1 =
    [ {| shardIndex := 0; moved := oneShard |} ] /\
  oneShard <> [].
Proof. split; [by vm_compute | done]. Qed.

(** C8, amended.  When the number of output directories differs from the
    reduce shard count, [run] never comes to its loop: no store is opened and
    no merge is started.  The check is made after the balancer ran: with at
    least one reduce shard, every map shard is in a reduce shard by the time
    the assertion of line 32 fails. *)
Theorem run_checks (opt : options) (tmpDir : list mapShard) :
  Z.of_nat (length (shardOutputDirs opt)) <> ReduceShards opt ->
  (forall dirs, (prepare opt tmpDir).2 <> Prepared dirs) /\
  (1 <= ReduceShards opt ->
   (prepare opt tmpDir).2 = Asserted 32 /\
   holdings (prepare opt tmpDir).1 ≡ₚ tmpDir).
Proof. apply prepare_mismatch. Qed.

Lemma run_checks_witness :
  Z.of_nat (length (shardOutputDirs noOutputDir)) <> ReduceShards noOutputDir /\
  (forall dirs, (prepare noOutputDir oneShard).2 <> Prepared dirs) /\
  (1 <= ReduceShards noOutputDir ->
   (prepare noOutputDir oneShard).2 = Asserted 32 /\
   holdings (prepare noOutputDir oneShard).1 ≡ₚ oneShard).
Proof.
  assert (Z.of_nat (length (shardOutputDirs noOutputDir))
          <> ReduceShards noOutputDir) as Hne by (by vm_compute).
  split; [exact Hne|]. apply (run_checks noOutputDir oneShard). exact Hne.
Defined.

Lemma prepare_Prepared opt tmpDir dirs :
  (prepare opt tmpDir).2 = Prepared dirs -> 0 <= ReduceShards opt.
Proof.
  unfold prepare.
  destruct (mergeMapShardsIntoReduceShards _ _) as [tmp' [[]| |]]; simpl;
    try done.
  destruct (Z.eqb_spec (Z.of_nat (length (shardDirs treeSize tmp')))
              (ReduceShards opt)); simpl; [lia | done].
Qed.

Lemma runs_sound opt tmpDir s : runs opt tmpDir s -> sound opt s.
Proof.
  intros ([dirs Hd] & HK & Hr). apply prepare_Prepared in Hd.
  eapply (rtc_ind_r (fun s => sound opt s)); [by apply sound_boot | | exact Hr].
  intros s1 s2 _ Hstep IH. by eapply sound_step.
Qed.

Lemma oneMerging_runs : runs oneShuffler oneShard oneMerging.
Proof.
  split; [by eexists|]. split; [done|].
  eapply rtc_l; [by apply (step_acquire oneShuffler 0)|].
  eapply rtc_l; [by apply (step_go oneShuffler 0)|].
  apply rtc_refl.
Qed.

Lemma noShuffler_runs : runs noShuffler oneShard (boot noShuffler).
Proof. split; [by eexists|]. split; [done | apply rtc_refl]. Qed.





(** C10.  Whatever streams [shufflePostings] is given, no batch it sends is
    empty, every batch it sends in the loop has at least [batchSize]
    entries, and so has every batch it sends but the last. *)
Theorem shufflePostings_batch_sizes (mapEntryChs : list chan) :
  Forall (fun x => x <> []) (sent (shufflePostings mapEntryChs)) /\
  match fill [] mapEntryChs with
  | Ok ph =>
      Forall (fun x => batchSize <= Z.of_nat (length x))
        (output (mergeLoop batchSize (turns mapEntryChs) ph start).1)
  | _ => True
  end /\
  (forall i x,
     sent (shufflePostings mapEntryChs) !! i = Some x ->
     (S i < length (sent (shufflePostings mapEntryChs)))%nat ->
     batchSize <= Z.of_nat (length x)).
Proof.
  unfold shufflePostings. split; [|split].
  - destruct (shuffle_cases batchSize mapEntryChs)
      as [[Hin ->]|(F & recs & -> & P & Sr)]; [done|].
    by destruct (merged_batches batchSize recs) as [_ Hne _ _].
  - destruct (empty_or_not mapEntryChs) as [Hin|F].
    + destruct (fill_empty_stream mapEntryChs []) as [->|[_ ->]].
      * intros i Hi. simpl in Hi. lia.
      * intros c Hc. simpl in Hc. lia.
      * done.
      * done.
      * by vm_compute.
    + destruct (fill_spec mapEntryChs []) as (ph & -> & L & HO & P); [| |done|].
      { intros i Hi. simpl in Hi. lia. }
      { intros c Hc. simpl in Hc. lia. }
      simpl in P.
      destruct (mergeLoop_spec batchSize (turns mapEntryChs) ph start L HO)
        as (recs & -> & Pr & _).
      { unfold contents. rewrite P.
        fold (contents (mapEntryChs ≫= fun c =>
                advance {| mapEntry := None; ch := c |})).
        rewrite contents_first. unfold turns. lia. }
      by destruct (batched_foldl batchSize recs) as [_ _ _ Hsz _].
  - destruct (shuffle_cases batchSize mapEntryChs)
      as [[Hin ->]|(F & recs & -> & P & Sr)]; [done|].
    by destruct (merged_batches batchSize recs) as [_ _ _ Hsz].
Qed.

(** * Further properties of the merge *)

(** ** The order within a stream *)

Lemma mergeLoop_order size fuel : forall ph b,
  live ph -> isHeap ph -> (length (contents ph) <= fuel)%nat ->
  exists recs, mergeLoop size fuel ph b = (foldl (absorb size) b recs, Ok tt) /\
    recs ≡ₚ contents ph /\
    forall n, n ∈ ph -> sublist (nodeEntries n) recs.
Proof.
  induction fuel as [|fuel IH]; intros ph b L HO Hfuel.
  - destruct ph as [|n0 rest].
    + exists []. split; [done|]. split; [done|]. by intros n ?%elem_of_nil.
    + destruct (live_cons _ _ L) as [[e He] _].
      unfold contents in Hfuel. simpl in Hfuel. unfold nodeEntries in Hfuel.
      rewrite He in Hfuel. simpl in Hfuel. lia.
  - destruct ph as [|n0 rest].
    + exists []. split; [done|]. split; [done|]. by intros n ?%elem_of_nil.
    + destruct (dequeue_spec n0 rest L HO)
        as (me & ph' & Hme & Hd & P & L' & HO' & _).
      cbn [mergeLoop]. rewrite Hd. simpl.
      assert (contents (n0 :: rest) = me :: contents (advance n0 ++ rest)) as E.
      { unfold contents. rewrite bind_app, app_comm_cons.
        fold (contents (advance n0)). by rewrite (contents_advance n0 me). }
      assert (contents ph' ≡ₚ contents (advance n0 ++ rest)) as P'.
      { unfold contents. by rewrite P. }
      destruct (IH ph' (absorb size b me) L' HO') as (recs & -> & Pr & Sub).
      { rewrite P'. rewrite E in Hfuel. simpl in Hfuel. lia. }
      exists (me :: recs). split; [done|]. split.
      * change (me :: recs ≡ₚ contents (n0 :: rest)). by rewrite E, Pr, P'.
      * intros n [->|Hn]%elem_of_cons.
        -- rewrite <- (contents_advance n0 me Hme). apply sublist_skip.
           unfold advance. destruct (ch n0) as [|e c] eqn:Ec.
           ++ apply sublist_nil_l.
           ++ unfold contents. simpl. rewrite app_nil_r.
              apply (Sub {| mapEntry := Some e; ch := c |}).
              rewrite P. unfold advance. rewrite Ec.
              apply elem_of_cons. by left.
        -- apply sublist_cons, Sub. rewrite P. apply elem_of_app. by right.
Qed.

Lemma shuffle_order size chs :
  Forall (fun c => c <> []) chs ->
  exists recs, shuffle size chs = merged size recs /\ recs ≡ₚ concat chs /\
    forall c, c ∈ chs -> sublist c recs.
Proof.
  intros F. unfold shuffle.
  destruct (fill_spec chs []) as (ph & -> & L & HO & P); [| |done|].
  { intros i Hi. simpl in Hi. lia. }
  { intros c Hc. simpl in Hc. lia. }
  simpl in P.
  assert (contents ph ≡ₚ concat chs) as Pc.
  { rewrite <- contents_first. unfold contents. by rewrite P. }
  destruct (mergeLoop_order size (turns chs) ph start L HO)
    as (recs & -> & Pr & Sub).
  { rewrite Pc. unfold turns. lia. }
  exists recs. split; [done|]. split; [by rewrite Pr|].
  intros c Hc. rewrite Forall_forall in F. specialize (F c Hc).
  destruct c as [|e c]; [done|].
  apply (Sub {| mapEntry := Some e; ch := c |}).
  rewrite P. apply list_elem_of_bind. exists (e :: c). split; [|done].
  unfold advance. simpl. apply elem_of_cons. by left.
Qed.

Lemma sublist_all {A} (l k : list A) :
  sublist l k -> length k = length l -> l = k.
Proof.
  induction 1 as [|x l k _ IH|x l k Hs _]; simpl; intros Hl.
  - done.
  - f_equal. apply IH. lia.
  - apply sublist_length in Hs. lia.
Qed.

(** ** Every entry counted once *)

Lemma total_app r1 r2 : total (r1 ++ r2) = total r1 + total r2.
Proof. induction r1 as [|p r1 IH]; simpl; [done|]. rewrite IH. lia. Qed.

Lemma counted_total size recs :
  Z.of_nat (length recs) < 2 ^ 63 ->
  0 <= plistLen (foldl (absorb size) start recs) /\
  0 <= total (counted (foldl (absorb size) start recs)) /\
  total (counted (foldl (absorb size) start recs)) +
  plistLen (foldl (absorb size) start recs) = Z.of_nat (length recs).
Proof.
  induction recs as [|e recs IH] using rev_ind; intros Hlen; [done|].
  rewrite length_app in Hlen. simpl in Hlen.
  destruct IH as (Hpos & Htot & Hsum); [lia|].
  rewrite foldl_snoc, absorb_counted, absorb_plistLen, length_app. simpl.
  destruct (reports _ e); cbv iota.
  - rewrite wrapInt_small by lia. rewrite total_app. simpl. lia.
  - rewrite wrapInt_small by lia. lia.
Qed.

Lemma merged_total size recs :
  Z.of_nat (length recs) < 2 ^ 63 ->
  total (reported (merged size recs)) = Z.of_nat (length recs).
Proof.
  intros Hlen. destruct (counted_total size recs Hlen) as (Hpos & _ & Hsum).
  unfold merged. cbn [reported]. rewrite flush_counted.
  destruct (Z.gtb_spec (plistLen (foldl (absorb size) start recs)) 0).
  - rewrite total_app. simpl. lia.
  - lia.
Qed.

(** ** No batch longer than it must be *)

Lemma tight_one size e : tight size [e].
Proof. intros i a b _ Hb. by destruct i. Qed.

Lemma tight_nil size : tight size [].
Proof. by intros i a b Ha. Qed.

Lemma tight_step size recs b e :
  0 < size -> batched size recs b ->
  Forall (tight size) (output b) -> tight size (batch b) ->
  Forall (tight size) (output (absorb size b e)) /\
  tight size (batch (absorb size b e)).
Proof.
  intros Hsize [Hall Hkey _ _ _] Ho Hb.
  rewrite absorb_output, absorb_batch.
  destruct (cuts size b e) eqn:C.
  - split; [|apply tight_one]. apply Forall_app. split; [done|].
    by constructor.
  - split; [done|]. simpl. intros i a c Ha Hc Hi.
    destruct (decide (S i < length (batch b))%nat) as [Hlt|Hge].
    + rewrite lookup_app_l in Ha by lia. rewrite lookup_app_l in Hc by lia.
      by apply (Hb i).
    + assert (S i = length (batch b)) as Ei.
      { apply lookup_lt_Some in Hc. rewrite length_app in Hc. simpl in Hc. lia. }
      rewrite lookup_app_l in Ha by lia.
      rewrite lookup_app_r, Ei, Nat.sub_diag in Hc by lia.
      injection Hc as <-.
      assert (last (batch b) = Some a) as La.
      { rewrite last_lookup, <- Ei. done. }
      assert (last recs = Some a) as Lr.
      { rewrite <- Hall, last_app_ne; [done|]. intros E. by rewrite E in La. }
      unfold cuts in C. rewrite andb_false_iff in C. destruct C as [C|C].
      * rewrite Z.geb_leb in C. apply Z.leb_nle in C. lia.
      * apply negb_false_iff, Z.eqb_eq, Compare_eq in C.
        rewrite <- C, Hkey. unfold lastKey. by rewrite Lr.
Qed.

Lemma tight_foldl size recs :
  0 < size ->
  Forall (tight size) (output (foldl (absorb size) start recs)) /\
  tight size (batch (foldl (absorb size) start recs)).
Proof.
  intros Hsize. induction recs as [|e recs [IHo IHb]] using rev_ind.
  - split; [done | apply tight_nil].
  - rewrite foldl_snoc. apply (tight_step size recs); [done| |done|done].
    by apply batched_foldl.
Qed.

Lemma merged_tight size recs :
  0 < size -> Forall (tight size) (sent (merged size recs)).
Proof.
  intros Hsize. destruct (tight_foldl size recs Hsize) as [Ho Hb].
  unfold merged. cbn [sent]. rewrite flush_output.
  destruct (batch _) eqn:Eb; [done|].
  apply Forall_app. split; [done|]. by constructor.
Qed.

(** ** The heap of [shufflePostings] *)

Lemma keyOf_entry (h : list heapNode) k n e :
  h !! k = Some n -> mapEntry n = Some e -> keyOf h k = Key e.
Proof. intros Hk He. unfold keyOf, keyAt. rewrite Hk. simpl. by rewrite He. Qed.

(** X1.  [heap.Push] of a node that holds an entry, on a heap whose nodes all
    hold one: no panic; the heap gains the node and loses none, it is in heap
    order again, and no node has a smaller key than the root. *)
Theorem heapPush_heap (h : list heapNode) (x : heapNode) :
  Forall (fun n => is_Some (mapEntry n)) h -> isHeap h ->
  is_Some (mapEntry x) ->
  exists h', heapPush h x = Ok h' /\ h' ≡ₚ x :: h /\
    Forall (fun n => is_Some (mapEntry n)) h' /\ isHeap h' /\
    forall k, (k < length h')%nat -> Compare (keyOf h' 0) (keyOf h' k) <= 0.
Proof.
  intros L%live_Forall HO Hx.
  destruct (heapPush_spec h x L HO Hx) as (h' & E & P & L' & HO').
  exists h'. split; [done|]. split; [done|]. split; [by apply live_Forall|].
  split; [done|]. intros k Hk. by apply (root_least (length h')).
Qed.

Lemma heapPush_heap_witness :
  exists h', heapPush [ {| mapEntry := Some (entry "b"); ch := [] |} ]
               {| mapEntry := Some (entry "a"); ch := [entry "c"] |} = Ok h' /\
    keyOf h' 0 = bytes "a".
Proof.
  destruct (heapPush_heap [ {| mapEntry := Some (entry "b"); ch := [] |} ]
              {| mapEntry := Some (entry "a"); ch := [entry "c"] |})
    as (h' & E & _).
  - repeat constructor. by eexists.
  - intros c Hc. simpl in Hc. lia.
  - by eexists.
  - exists h'. split; [done|]. vm_compute in E. by injection E as <-.
Defined.

(** X2.  One turn of the loop on a heap whose nodes all hold an entry: the
    entry taken is the one at the root, no node left holds a smaller key, the
    root's node is replaced by one for the next entry of its channel (or
    removed when the channel is closed), and the heap is in order again. *)
Theorem dequeue_least (n0 : heapNode) (rest : list heapNode) :
  Forall (fun n => is_Some (mapEntry n)) (n0 :: rest) -> isHeap (n0 :: rest) ->
  exists me ph', mapEntry n0 = Some me /\
    dequeue (n0 :: rest) = Ok (Some me, ph') /\
    ph' ≡ₚ advance n0 ++ rest /\
    Forall (fun n => is_Some (mapEntry n)) ph' /\ isHeap ph' /\
    Forall (fun n => forall e, mapEntry n = Some e ->
                       Compare (Key me) (Key e) <= 0) rest.
Proof.
  intros L%live_Forall HO.
  destruct (dequeue_spec n0 rest L HO)
    as (me & ph' & Hme & Hd & P & L' & HO' & Hmin).
  exists me, ph'. split; [done|]. split; [done|]. split; [done|].
  split; [by apply live_Forall|]. split; [done|].
  apply Forall_lookup. intros k n Hk e He.
  rewrite <- (keyOf_entry (n0 :: rest) (S k) n e Hk He).
  apply Hmin. apply lookup_lt_Some in Hk. simpl. lia.
Qed.

Lemma dequeue_least_witness :
  exists ph',
    dequeue [ {| mapEntry := Some (entry "a"); ch := [entry "c"] |};
              {| mapEntry := Some (entry "b"); ch := [] |} ]
    = Ok (Some (entry "a"), ph') /\
    ph' ≡ₚ [ {| mapEntry := Some (entry "c"); ch := [] |};
             {| mapEntry := Some (entry "b"); ch := [] |} ].
Proof.
  destruct (dequeue_least {| mapEntry := Some (entry "a"); ch := [entry "c"] |}
              [ {| mapEntry := Some (entry "b"); ch := [] |} ])
    as (me & ph' & Hme & Hd & P & _).
  - repeat constructor; by eexists.
  - intros c Hc. assert (c = 1%nat) as -> by (simpl in Hc; lia). by vm_compute.
  - injection Hme as <-. by exists ph'.
Defined.

(** ** The merged streams *)

Lemma three_streams_open : Forall (fun c : list MapEntry => c <> []) threeStreams.
Proof. by repeat constructor. Qed.

(** X3.  When no stream is closed from the start, the entries of every stream
    come out of [shufflePostings] in the order the stream had them, with the
    entries of the other streams in between, whether or not the streams are
    in key order; so a single stream is sent as it is. *)
Theorem shufflePostings_order (mapEntryChs : list chan) :
  Forall (fun c => c <> []) mapEntryChs ->
  (forall c, c ∈ mapEntryChs ->
     sublist c (concat (sent (shufflePostings mapEntryChs)))) /\
  (forall c, mapEntryChs = [c] ->
     concat (sent (shufflePostings mapEntryChs)) = c).
Proof.
  intros F. unfold shufflePostings.
  destruct (shuffle_order batchSize mapEntryChs F) as (recs & -> & P & Sub).
  destruct (merged_batches batchSize recs) as [Hall _ _ _]; [done|].
  rewrite Hall. split; [done|]. intros c ->. symmetry.
  apply sublist_all.
  - apply Sub, elem_of_cons. by left.
  - rewrite P. simpl. by rewrite app_nil_r.
Qed.

Lemma shufflePostings_order_witness :
  Forall (fun c : list MapEntry => c <> []) threeStreams /\
  (forall c, c ∈ threeStreams ->
     sublist c (concat (sent (shufflePostings threeStreams)))) /\
  (forall c, threeStreams = [c] ->
     concat (sent (shufflePostings threeStreams)) = c).
Proof.
  split; [exact three_streams_open|].
  apply (shufflePostings_order threeStreams). exact three_streams_open.
Defined.

(** X4.  When no stream is closed from the start, whatever the order of the
    keys, [shufflePostings] returns after it sent every entry of every stream
    in exactly one batch, and (for fewer than 2^63 entries) the counts it gave
    to [ci.addUid] add up to the number of entries. *)
Theorem shufflePostings_conserves (mapEntryChs : list chan) :
  Forall (fun c => c <> []) mapEntryChs ->
  exit (shufflePostings mapEntryChs) = Ok tt /\
  concat (sent (shufflePostings mapEntryChs)) ≡ₚ concat mapEntryChs /\
  (Z.of_nat (length (concat mapEntryChs)) < 2 ^ 63 ->
   total (reported (shufflePostings mapEntryChs)) =
   Z.of_nat (length (concat mapEntryChs))).
Proof.
  intros F. unfold shufflePostings.
  destruct (shuffle_order batchSize mapEntryChs F) as (recs & -> & P & _).
  destruct (merged_batches batchSize recs) as [Hall _ _ _]; [done|].
  split; [done|]. split; [by rewrite Hall|].
  intros Hlen. rewrite <- P. apply merged_total. by rewrite P.
Qed.

Lemma shufflePostings_conserves_witness :
  Forall (fun c : list MapEntry => c <> []) threeStreams /\
  exit (shufflePostings threeStreams) = Ok tt /\
  concat (sent (shufflePostings threeStreams)) ≡ₚ concat threeStreams /\
  (Z.of_nat (length (concat threeStreams)) < 2 ^ 63 ->
   total (reported (shufflePostings threeStreams)) =
   Z.of_nat (length (concat threeStreams))).
Proof.
  split; [exact three_streams_open|].
  apply (shufflePostings_conserves threeStreams). exact three_streams_open.
Defined.

(** X5.  Whatever streams [shufflePostings] is given, a batch it sends goes
    beyond [batchSize] entries only with further entries of the key its
    [batchSize]-th entry has: from that entry on, every entry of the batch has
    the key of the entry before it. *)
Theorem shufflePostings_batch_tight (mapEntryChs : list chan) :
  Forall (tight batchSize) (sent (shufflePostings mapEntryChs)).
Proof.
  unfold shufflePostings.
  destruct (shuffle_cases batchSize mapEntryChs)
    as [[_ ->]|(_ & recs & -> & _)]; [done|].
  by apply merged_tight.
Qed.

(** With a threshold of two entries and a third [a] among the streams above,
    the batch of the [a]s takes all three. *)
Example shuffle_long_group :
  sent (shuffle 2 ([entry "a"] :: threeStreams)) =
  [[entry "a"; entry "a"; entry "a"]; [entry "b"; entry "c"; entry "c"]].
Proof. by vm_compute. Qed.

(** * Further properties of the decoder *)

(** ** The loop ends on every file *)

Lemma closed_deliver me d : closed (deliver me d) = closed d.
Proof. done. Qed.

Lemma delivered_deliver me d : delivered (deliver me d) = me :: delivered d.
Proof. done. Qed.

Lemma readLoop_ends Unmarshal fuel : forall r,
  (length r < fuel)%nat ->
  closed (readLoop Unmarshal fuel r) <> OutOfFuel /\
  (length (delivered (readLoop Unmarshal fuel r)) <= length r)%nat.
Proof.
  induction fuel as [|fuel IH]; intros r Hfuel; [lia|].
  cbn [readLoop]. unfold Peek.
  destruct (Nat.ltb_spec (length r) MaxVarintLen64) as [|Hlong];
    [simpl; split; [done | lia]|].
  destruct (Uvarint (take MaxVarintLen64 r)) as [sz n] eqn:EU.
  destruct (Z.leb_spec n 0) as [|Hn]; [simpl; split; [done | lia]|].
  destruct (sz >=? 2 ^ 63); [simpl; split; [done | lia]|].
  destruct (Z.of_nat (length (drop (Z.to_nat n) r)) <? sz);
    [simpl; split; [done | lia]|].
  destruct (Unmarshal _) as [me|]; [|simpl; split; [done | lia]].
  rewrite closed_deliver, delivered_deliver.
  assert (length (drop (Z.to_nat sz) (drop (Z.to_nat n) r)) < length r)%nat
    as Hshort.
  { rewrite !length_drop. unfold MaxVarintLen64 in Hlong. lia. }
  destruct (IH (drop (Z.to_nat sz) (drop (Z.to_nat n) r))) as [Hc Hd]; [lia|].
  split; [done|]. simpl. lia.
Qed.

(** The result does not depend on the turns the loop is given, beyond one
    for every byte. *)
Lemma readLoop_fuel Unmarshal f1 : forall f2 r,
  (length r < f1)%nat -> (length r < f2)%nat ->
  readLoop Unmarshal f1 r = readLoop Unmarshal f2 r.
Proof.
  induction f1 as [|f1 IH]; intros f2 r H1 H2; [lia|].
  destruct f2 as [|f2]; [lia|].
  cbn [readLoop]. unfold Peek.
  destruct (Nat.ltb_spec (length r) MaxVarintLen64) as [|Hlong]; [done|].
  destruct (Uvarint (take MaxVarintLen64 r)) as [sz n] eqn:EU.
  destruct (Z.leb_spec n 0) as [|Hn]; [done|].
  destruct (sz >=? 2 ^ 63); [done|].
  destruct (Z.of_nat (length (drop (Z.to_nat n) r)) <? sz); [done|].
  destruct (Unmarshal _) as [me|]; [|done].
  assert (length (drop (Z.to_nat sz) (drop (Z.to_nat n) r)) < length r)%nat.
  { rewrite !length_drop. unfold MaxVarintLen64 in Hlong. lia. }
  f_equal. apply IH; lia.
Qed.

(** ** Records followed by more of the file *)

Lemma readLoop_frame Unmarshal fuel body rest :
  (10 <= length (frame body ++ rest))%nat -> Z.of_nat (length body) < 2 ^ 63 ->
  readLoop Unmarshal (S fuel) (frame body ++ rest) =
  match Unmarshal body with
  | Some me => deliver me (readLoop Unmarshal fuel rest)
  | None => fatal
  end.
Proof.
  intros Hrest Hb. cbn [readLoop]. unfold Peek. unfold frame in *.
  pose proof (PutUvarint_length (Z.of_nat (length body))) as Hput.
  set (put := PutUvarint (Z.of_nat (length body))) in *.
  unfold MaxVarintLen64 in *.
  destruct (Nat.ltb_spec (length ((put ++ body) ++ rest)) 10) as [Hs|_]; [lia|].
  rewrite <- !app_assoc. rewrite take_app_ge by lia.
  unfold put at 1. rewrite Uvarint_PutUvarint by lia. fold put.
  destruct (Z.leb_spec (Z.of_nat (length put)) 0) as [|_]; [lia|].
  rewrite Nat2Z.id, drop_app_length.
  destruct (Z.geb_spec (Z.of_nat (length body)) (2 ^ 63)) as [|_]; [lia|].
  rewrite length_app.
  destruct (Z.ltb_spec (Z.of_nat (length body + length rest))
              (Z.of_nat (length body))) as [|_]; [lia|].
  by rewrite Nat2Z.id, take_app_length, drop_app_length.
Qed.

Lemma readMapOutput_frame Unmarshal body rest :
  (10 <= length (frame body ++ rest))%nat -> Z.of_nat (length body) < 2 ^ 63 ->
  readMapOutput Unmarshal (frame body ++ rest) =
  match Unmarshal body with
  | Some me => deliver me (readMapOutput Unmarshal rest)
  | None => fatal
  end.
Proof.
  intros Hrest Hb. unfold readMapOutput. rewrite readLoop_frame by done.
  destruct (Unmarshal body); [|done]. f_equal.
  pose proof (PutUvarint_length (Z.of_nat (length body))).
  apply readLoop_fuel; unfold frame; rewrite ?length_app; lia.
Qed.

Lemma mapFile_app l1 l2 : mapFile (l1 ++ l2) = mapFile l1 ++ mapFile l2.
Proof. unfold mapFile. apply bind_app. Qed.

Lemma readMapOutput_app Unmarshal bodies : forall recs rest,
  (10 <= length rest)%nat ->
  Forall (fun body => Z.of_nat (length body) < 2 ^ 63) bodies ->
  Forall2 (fun body me => Unmarshal body = Some me) bodies recs ->
  readMapOutput Unmarshal (mapFile bodies ++ rest) =
  foldr deliver (readMapOutput Unmarshal rest) recs.
Proof.
  induction bodies as [|body bodies IH]; intros recs rest Hrest Hlen HU.
  - by apply Forall2_nil_inv_l in HU as ->.
  - apply Forall2_cons_inv_l in HU as (me & recs' & Hme & HU & ->).
    inversion Hlen as [|? ? Hb Hlen']; subst.
    change (mapFile (body :: bodies)) with (frame body ++ mapFile bodies).
    rewrite <- app_assoc, readMapOutput_frame, Hme; [|rewrite !length_app; lia|done].
    simpl. f_equal. by apply IH.
Qed.

Lemma delivered_foldr recs d :
  delivered (foldr deliver d recs) = recs ++ delivered d.
Proof. induction recs as [|me recs IH]; simpl; [done|]. by rewrite IH. Qed.

Lemma closed_foldr recs d : closed (foldr deliver d recs) = closed d.
Proof. induction recs as [|me recs IH]; simpl; done. Qed.

(** A length prefix that announces more bytes than the file has left. *)
Lemma readMapOutput_truncated Unmarshal sz tail :
  0 <= sz < 2 ^ 64 -> Z.of_nat (length tail) < sz ->
  (10 <= length (PutUvarint sz ++ tail))%nat ->
  readMapOutput Unmarshal (PutUvarint sz ++ tail) = fatal.
Proof.
  intros Hsz Htail Hlong. unfold readMapOutput. cbn [readLoop]. unfold Peek.
  pose proof (PutUvarint_length sz) as Hput. unfold MaxVarintLen64 in *.
  destruct (Nat.ltb_spec (length (PutUvarint sz ++ tail)) 10) as [|_]; [lia|].
  rewrite length_app in Hlong. rewrite take_app_ge by lia.
  rewrite Uvarint_PutUvarint by lia.
  destruct (Z.leb_spec (Z.of_nat (length (PutUvarint sz))) 0) as [|_]; [lia|].
  rewrite Nat2Z.id, drop_app_length.
  destruct (sz >=? 2 ^ 63); [done|].
  by destruct (Z.ltb_spec (Z.of_nat (length tail)) sz) as [_|]; [|lia].
Qed.

(** A length prefix that does not end within ten bytes. *)
Lemma uvarintFrom_open buf : forall i x s,
  Forall (fun b => 128 <= byteZ b) buf -> uvarintFrom buf i x s = (0, 0).
Proof.
  induction buf as [|b buf IH]; intros i x s F; [done|].
  inversion F as [|? ? Hb F']; subst. cbn [uvarintFrom].
  destruct (Z.ltb_spec (byteZ b) 128); [lia|]. by apply IH.
Qed.

Lemma readMapOutput_open Unmarshal file :
  (10 <= length file)%nat ->
  Forall (fun b => 128 <= byteZ b) (take 10 file) ->
  readMapOutput Unmarshal file = fatal.
Proof.
  intros Hlong F. unfold readMapOutput. cbn [readLoop]. unfold Peek.
  unfold MaxVarintLen64.
  destruct (Nat.ltb_spec (length file) 10) as [|_]; [lia|].
  unfold Uvarint. by rewrite uvarintFrom_open.
Qed.

(** X8.  On every file, well-formed or not, and whatever [proto.Unmarshal]
    does, the loop of [readMapOutput] comes to an end, by closing the channel
    or by a fatal error, and it has sent no more entries than the file has
    bytes. *)
Theorem readMapOutput_ends (Unmarshal : list byte -> option MapEntry)
    (file : list byte) :
  closed (readMapOutput Unmarshal file) <> OutOfFuel /\
  (length (delivered (readMapOutput Unmarshal file)) <= length file)%nat.
Proof. apply readLoop_ends. lia. Qed.

(** X10.  When at least ten bytes follow them, the records at the start of a
    file are all sent, in their order, whatever their size, and
    [readMapOutput] goes on with the rest of the file as it would on a file
    of its own. *)
Theorem readMapOutput_more (Unmarshal : list byte -> option MapEntry)
    (bodies : list (list byte)) (recs : list MapEntry) (rest : list byte) :
  (10 <= length rest)%nat ->
  Forall (fun body => Z.of_nat (length body) < 2 ^ 63) bodies ->
  Forall2 (fun body me => Unmarshal body = Some me) bodies recs ->
  delivered (readMapOutput Unmarshal (mapFile bodies ++ rest)) =
    recs ++ delivered (readMapOutput Unmarshal rest) /\
  closed (readMapOutput Unmarshal (mapFile bodies ++ rest)) =
    closed (readMapOutput Unmarshal rest).
Proof.
  intros Hrest Hlen HU. rewrite (readMapOutput_app _ _ recs) by done.
  by rewrite delivered_foldr, closed_foldr.
Qed.

Lemma readMapOutput_more_witness :
  delivered (readMapOutput keyOnly
    (mapFile [[x61]] ++ mapFile [[x62; x63; x64; x65; x66; x67; x68; x69; x6a]]))
  = [ {| Key := [x61]; Payload := [] |} ] ++
    delivered (readMapOutput keyOnly
      (mapFile [[x62; x63; x64; x65; x66; x67; x68; x69; x6a]])).
Proof.
  apply (readMapOutput_more keyOnly [[x61]] [ {| Key := [x61]; Payload := [] |} ]
           (mapFile [[x62; x63; x64; x65; x66; x67; x68; x69; x6a]])).
  - vm_compute. lia.
  - repeat constructor.
  - by repeat constructor.
Defined.

(** X11.  After records that are sent, a record that is cut short by the end
    of the file, a record [proto.Unmarshal] rejects, or a length prefix that
    does not end within ten bytes is fatal, when the file has ten bytes or
    more from there on: [readMapOutput] does not close the channel. *)
Theorem readMapOutput_corrupt (Unmarshal : list byte -> option MapEntry)
    (bodies : list (list byte)) (recs : list MapEntry) (bad : list byte) :
  Forall (fun body => Z.of_nat (length body) < 2 ^ 63) bodies ->
  Forall2 (fun body me => Unmarshal body = Some me) bodies recs ->
  (10 <= length bad)%nat ->
  (exists sz tail, bad = PutUvarint sz ++ tail /\ 0 <= sz < 2 ^ 64 /\
                   Z.of_nat (length tail) < sz) \/
  (exists body more, bad = frame body ++ more /\
                     Z.of_nat (length body) < 2 ^ 63 /\ Unmarshal body = None) \/
  Forall (fun b => 128 <= byteZ b) (take 10 bad) ->
  readMapOutput Unmarshal (mapFile bodies ++ bad) =
  {| delivered := recs; closed := Panic |}.
Proof.
  intros Hlen HU Hlong Hbad. rewrite (readMapOutput_app _ _ recs) by done.
  assert (readMapOutput Unmarshal bad = fatal) as ->.
  { destruct Hbad as [(sz & tail & -> & Hsz & Ht)|[(body & more & -> & Hb & E)|F]].
    - by apply readMapOutput_truncated.
    - by rewrite readMapOutput_frame, E.
    - by apply readMapOutput_open. }
  clear. induction recs as [|me recs IH]; [done|]. simpl. by rewrite IH.
Qed.

Lemma readMapOutput_corrupt_witness :
  readMapOutput keyOnly
    (mapFile [[x61]] ++
     PutUvarint 20 ++ [x62; x63; x64; x65; x66; x67; x68; x69; x6a]) =
  {| delivered := [ {| Key := [x61]; Payload := [] |} ]; closed := Panic |}.
Proof.
  apply (readMapOutput_corrupt keyOnly [[x61]]
           [ {| Key := [x61]; Payload := [] |} ]
           (PutUvarint 20 ++ [x62; x63; x64; x65; x66; x67; x68; x69; x6a])).
  - repeat constructor.
  - by repeat constructor.
  - vm_compute. lia.
  - left. exists 20, [x62; x63; x64; x65; x66; x67; x68; x69; x6a].
    split; [done|]. split; [lia|]. simpl. lia.
Defined.

(** * Further properties of the balancer *)

(** ** The spread of the reduce shards *)

Lemma treeSize_rename shard r :
  treeSize (rename shard r) = treeSize r + shardSize shard.
Proof. unfold treeSize, rename. simpl. rewrite sizes_app. simpl. lia. Qed.

Lemma moveShards_spread M mapShards : forall rs,
  rs <> [] ->
  Forall (fun m => 0 <= shardSize m <= M) mapShards ->
  spread M rs ->
  exists rs', moveShards mapShards rs = (rs', Ok tt) /\ spread M rs'.
Proof.
  induction mapShards as [|shard mapShards IH]; intros rs Hne HM Hs.
  - by exists rs.
  - inversion HM as [|? ? [Hs0 HsM] HM']; subst. cbn [moveShards].
    pose proof (sortBySize_perm treeSize rs true) as P.
    destruct (sortBySize treeSize rs true) as [|r0 rs0] eqn:E.
    { apply Permutation_nil_l in P. done. }
    pose proof (sortBySize_least treeSize rs r0 rs0 E) as Hmin.
    rewrite Forall_forall in Hmin.
    assert (forall r, r ∈ rs0 -> r ∈ rs) as Hin.
    { intros r Hr. rewrite <- P. by apply elem_of_cons; right. }
    assert (r0 ∈ rs) as Hr0 by (rewrite <- P; by apply elem_of_cons; left).
    apply IH; [done | done |].
    intros r1 r2 [->|H1]%elem_of_cons [->|H2]%elem_of_cons;
      rewrite ?treeSize_rename.
    + lia.
    + specialize (Hmin r2 (Hin r2 H2)). lia.
    + specialize (Hs r1 r0 (Hin r1 H1) Hr0). lia.
    + by apply Hs; apply Hin.
Qed.

Lemma spread_empty M n : 0 <= M -> spread M (emptyShards n).
Proof.
  intros HM r1 r2 H1 H2. unfold emptyShards in *.
  apply list_elem_of_fmap in H1 as (i & -> & _).
  apply list_elem_of_fmap in H2 as (j & -> & _).
  unfold treeSize. simpl. lia.
Qed.

(** ** Without reduce shards *)

Lemma moveShards_none mapShards :
  moveShards mapShards [] =
  ([], match mapShards with [] => Ok tt | _ :: _ => Panic end).
Proof. by destruct mapShards. Qed.

Lemma sortBySize_nil {A} (size : A -> Z) dirs asc :
  sortBySize size dirs asc = [] <-> dirs = [].
Proof.
  split.
  - intros E. pose proof (sortBySize_perm size dirs asc) as P.
    rewrite E in P. by apply Permutation_nil_l in P.
  - intros ->. by destruct asc.
Qed.

Lemma balancer_none N tmpDir :
  N <= 0 ->
  mergeMapShardsIntoReduceShards N tmpDir =
  ([], match tmpDir with [] => Ok tt | _ :: _ => Panic end).
Proof.
  intros HN. unfold mergeMapShardsIntoReduceShards, shardDirs.
  replace (Z.to_nat N) with 0%nat by lia.
  fold (emptyShards 0). change (emptyShards 0) with (@nil reduceShard).
  rewrite moveShards_none.
  destruct (sortBySize shardSize tmpDir false) eqn:E.
  - apply sortBySize_nil in E. by subst.
  - destruct tmpDir as [|m0 l0]; [|done].
    assert (sortBySize shardSize [] false = []) as E'
      by (by apply sortBySize_nil).
    by rewrite E' in E.
Qed.

(** ** No more map shards than reduce shards *)






(** ** How [run] comes to its loop *)

Lemma prepare_runs opt tmpDir :
  1 <= ReduceShards opt ->
  exists rs, mergeMapShardsIntoReduceShards (ReduceShards opt) tmpDir = (rs, Ok tt) /\
    Z.of_nat (length rs) = ReduceShards opt /\ holdings rs ≡ₚ tmpDir /\
    prepare opt tmpDir =
    (rs, if Z.of_nat (length (shardOutputDirs opt)) =? ReduceShards opt
         then Prepared (shardDirs treeSize rs) else Asserted 32).
Proof.
  intros HN.
  destruct (balancer_runs (ReduceShards opt) tmpDir HN) as (rs & E & Hl & Ph).
  exists rs. split; [done|]. split; [lia|]. split; [done|].
  unfold prepare. rewrite E.
  assert (Z.of_nat (length (shardDirs treeSize rs)) = ReduceShards opt) as ->.
  { unfold shardDirs. rewrite sortBySize_perm, Hl. lia. }
  rewrite Z.eqb_refl. simpl.
  by destruct (Z.of_nat (length (shardOutputDirs opt)) =? ReduceShards opt).
Qed.

Lemma prepare_none opt tmpDir :
  ReduceShards opt <= 0 ->
  (prepare opt tmpDir).2 =
  match tmpDir with
  | _ :: _ => Crashed
  | [] =>
      if ReduceShards opt <? 0 then Asserted 31
      else if Z.of_nat (length (shardOutputDirs opt)) =? ReduceShards opt
      then Prepared [] else Asserted 32
  end.
Proof.
  intros HN. unfold prepare. rewrite balancer_none by done.
  destruct tmpDir as [|m l]; [|done].
  assert (shardDirs treeSize [] = []) as ->.
  { unfold shardDirs. by apply sortBySize_nil. }
  simpl length. change (Z.of_nat 0) with 0.
  destruct (Z.ltb_spec (ReduceShards opt) 0) as [Hlt|Hge].
  - destruct (Z.eqb_spec 0 (ReduceShards opt)); [lia | done].
  - assert (ReduceShards opt = 0) as -> by lia. simpl.
    by destruct (Z.of_nat (length (shardOutputDirs opt)) =? 0).
Qed.

(** X12.  For a reduce shard count of at least one and map shards of sizes
    that are not negative, no two reduce shards differ, when
    [mergeMapShardsIntoReduceShards] returns, by more than the size of the
    largest map shard. *)
Theorem balancer_spread (N : Z) (tmpDir : list mapShard)
    (r1 r2 : reduceShard) :
  1 <= N -> Forall (fun m => 0 <= shardSize m) tmpDir ->
  r1 ∈ (mergeMapShardsIntoReduceShards N tmpDir).1 ->
  r2 ∈ (mergeMapShardsIntoReduceShards N tmpDir).1 ->
  treeSize r1 - treeSize r2 <= largest tmpDir.
Proof.
  intros HN Hnn. unfold mergeMapShardsIntoReduceShards, shardDirs.
  fold (emptyShards (Z.to_nat N)).
  destruct (sizes_largest_nonneg tmpDir Hnn) as [_ HM].
  destruct (moveShards_spread (largest tmpDir)
              (sortBySize shardSize tmpDir false) (emptyShards (Z.to_nat N)))
    as (rs & -> & Hs).
  - destruct (Z.to_nat N) eqn:E; [lia | done].
  - rewrite sortBySize_perm. by apply largest_bound.
  - by apply spread_empty.
  - simpl. intros H1 H2. specialize (Hs r1 r2 H1 H2). lia.
Qed.

Lemma balancer_spread_witness :
  treeSize {| shardIndex := 0;
              moved := [ {| shardName := "000"; shardSize := 10 |};
                         {| shardName := "003"; shardSize := 5 |} ] |}
  - treeSize {| shardIndex := 1;
                moved := [ {| shardName := "001"; shardSize := 9 |};
                           {| shardName := "002"; shardSize := 5 |} ] |}
  <= largest fourShards.
Proof.
  apply (balancer_spread 2 fourShards).
  - lia.
  - repeat constructor; by vm_compute.
  - vm_compute. apply elem_of_cons. by left.
  - vm_compute. apply elem_of_cons. right. apply elem_of_cons. by left.
Defined.

(** X13.  [mergeMapShardsIntoReduceShards] panics (at [reduceShards[0]]) just
    when there is a map shard and the reduce shard count is zero or less;
    with such a count it makes no reduce shard. *)
Theorem balancer_panics (N : Z) (tmpDir : list mapShard) :
  ((mergeMapShardsIntoReduceShards N tmpDir).2 = Panic <->
   N <= 0 /\ tmpDir <> []) /\
  (N <= 0 -> (mergeMapShardsIntoReduceShards N tmpDir).1 = []).
Proof.
  destruct (Z.le_gt_cases N 0) as [HN|HN].
  - rewrite balancer_none by done. simpl. split; [|done].
    destruct tmpDir; split; try done.
    + by intros [_ ?].
  - destruct (balancer_runs N tmpDir) as (rs & -> & _); [lia|]. simpl.
    split; [|lia]. split; [done | lia].
Qed.

(** X14.  [run] comes to its loop just when there are as many output
    directories as reduce shards and there is a reduce shard or no map shard;
    then it has as many shard directories as reduce shards, holding all map
    shards.  The assertion of line 31 fails only for a negative count without
    map shards, and the balancer panics just when there is a map shard but no
    reduce shard. *)
Theorem run_prepares (opt : options) (tmpDir : list mapShard) :
  ((exists dirs, (prepare opt tmpDir).2 = Prepared dirs) <->
   Z.of_nat (length (shardOutputDirs opt)) = ReduceShards opt /\
   (1 <= ReduceShards opt \/ tmpDir = [])) /\
  ((prepare opt tmpDir).2 = Asserted 31 <->
   ReduceShards opt < 0 /\ tmpDir = []) /\
  ((prepare opt tmpDir).2 = Crashed <->
   ReduceShards opt <= 0 /\ tmpDir <> []) /\
  (forall dirs, (prepare opt tmpDir).2 = Prepared dirs ->
     Z.of_nat (length dirs) = ReduceShards opt /\ holdings dirs ≡ₚ tmpDir).
Proof.
  destruct (Z.le_gt_cases (ReduceShards opt) 0) as [HN|HN].
  - rewrite (prepare_none opt tmpDir HN).
    destruct tmpDir as [|m l].
    + destruct (Z.ltb_spec (ReduceShards opt) 0) as [Hlt|Hge].
      * split; [|split; [|split]]; try done.
        -- split; [by intros [dirs ?] | lia].
        -- split; [done | by intros [_ ?]].
      * assert (ReduceShards opt = 0) as E0 by lia. rewrite E0.
        destruct (Z.eqb_spec (Z.of_nat (length (shardOutputDirs opt))) 0)
          as [E|E].
        -- split; [|split; [|split]].
           ++ split; [by intros _; split; [|right] | by intros _; exists []].
           ++ split; [done | lia].
           ++ split; [done | by intros [_ ?]].
           ++ by intros dirs [= <-].
        -- split; [|split; [|split]]; try done.
           ++ split; [by intros [dirs ?] | by intros [? _]].
           ++ split; [done | lia].
           ++ split; [done | by intros [_ ?]].
    + split; [|split; [|split]]; try done.
      * split; [by intros [dirs ?] | intros [_ [?|?]]; [lia | done]].
      * split; [done | by intros [_ ?]].
  - destruct (prepare_runs opt tmpDir) as (rs & _ & Hl & Ph & ->); [lia|].
    simpl.
    destruct (Z.eqb_spec (Z.of_nat (length (shardOutputDirs opt)))
                (ReduceShards opt)) as [E|E].
    + split; [|split; [|split]].
      * split; [by intros _; split; [|left; lia] | by intros _; eexists].
      * split; [done | lia].
      * split; [done | lia].
      * intros dirs [= <-]. unfold shardDirs. split.
        -- by rewrite sortBySize_perm.
        -- by rewrite (holdings_perm _ _ (sortBySize_perm treeSize rs false)).
    + split; [|split; [|split]]; try done.
      * split; [by intros [dirs ?] | by intros [? _]].
      * split; [done | lia].
      * split; [done | lia].
Qed.



(** * Further properties of the driver *)

Lemma tally_lookup f ws k w :
  ws !! k = Some w -> (f w <= tally f ws)%nat.
Proof.
  unfold tally. revert k. induction ws as [|w' ws IH]; intros [|k] Hk;
    simplify_eq/=; [lia|]. specialize (IH k Hk). lia.
Qed.

Lemma tally_length ws : (tally gone ws <= length ws)%nat.
Proof.
  unfold tally. induction ws as [|w ws IH]; simpl; [lia|].
  destruct w; simpl; lia.
Qed.

Lemma prepared_lengths opt tmpDir dirs :
  (prepare opt tmpDir).2 = Prepared dirs ->
  Z.of_nat (length dirs) = ReduceShards opt /\
  Z.of_nat (length (shardOutputDirs opt)) = ReduceShards opt.
Proof.
  unfold prepare.
  destruct (mergeMapShardsIntoReduceShards _ _) as [tmp' [[]| |]]; simpl;
    try done.
  destruct (Z.eqb_spec (Z.of_nat (length (shardDirs treeSize tmp')))
              (ReduceShards opt)); simpl; [|done].
  destruct (Z.eqb_spec (Z.of_nat (length (shardOutputDirs opt)))
              (ReduceShards opt)); simpl; [|done].
  by intros [= <-].
Qed.

Lemma oneOpening_runs : runs oneShuffler oneShard oneOpening.
Proof.
  split; [by eexists|]. split; [done|].
  eapply rtc_l; [by apply (step_acquire oneShuffler 0)|]. apply rtc_refl.
Qed.

(** X16.  With [NumShufflers] zero and a reduce shard to shuffle, [run] never
    gets past its first [pending <- struct{}{}]: it starts no goroutine, no
    goroutine can take a step, and [s.output] is never closed. *)
Theorem run_no_shuffler (opt : options) (tmpDir : list mapShard) (s : system) :
  runs opt tmpDir s -> NumShufflers opt = 0 -> 1 <= ReduceShards opt ->
  s = boot opt /\ (forall s', ~ step opt s s') /\ closes s = 0%nat.
Proof.
  intros (_ & _ & Hr) HK HN.
  assert (s = boot opt) as -> by (by apply run_stuck).
  split; [done|]. split; [|done].
  intros s' Hstep. inversion Hstep; simplify_eq/=; lia.
Qed.

Lemma run_no_shuffler_witness :
  (runs noShuffler oneShard (boot noShuffler) /\
   NumShufflers noShuffler = 0 /\ 1 <= ReduceShards noShuffler) /\
  boot noShuffler = boot noShuffler /\
  (forall s', ~ step noShuffler (boot noShuffler) s') /\
  closes (boot noShuffler) = 0%nat.
Proof.
  split; [split; [exact noShuffler_runs | by split]|].
  apply (run_no_shuffler noShuffler oneShard (boot noShuffler));
    [exact noShuffler_runs | done | done].
Defined.

(** X17.  In every state [run] passes through, the counter of the wait group
    is the number of reduce shards whose goroutine has not yet called
    [wg.Done()], so it never goes below zero; [pending] never holds more than
    [NumShufflers] values; and a goroutine that comes to [<-pending] finds a
    value there. *)
Theorem run_counters (opt : options) (tmpDir : list mapShard) (s : system) :
  runs opt tmpDir s ->
  wg s = ReduceShards opt - Z.of_nat (tally gone (tasks s)) /\
  0 <= wg s /\
  Z.of_nat (pending s) <= NumShufflers opt /\
  (forall k, tasks s !! k = Some Releasing -> (0 < pending s)%nat).
Proof.
  intros [Hp Hb Hw Hg Hc]%runs_sound.
  split; [done|]. split; [|split; [done|]].
  - pose proof (tally_length (tasks s)). apply progress_length in Hg. lia.
  - intros k Hk. pose proof (tally_lookup holding _ k _ Hk) as Hh.
    simpl in Hh. destruct (main s); simpl in Hp; lia.
Qed.

Lemma run_counters_witness :
  runs oneShuffler oneShard oneMerging /\
  wg oneMerging =
    ReduceShards oneShuffler - Z.of_nat (tally gone (tasks oneMerging)) /\
  0 <= wg oneMerging /\
  Z.of_nat (pending oneMerging) <= NumShufflers oneShuffler /\
  (forall k, tasks oneMerging !! k = Some Releasing ->
     (0 < pending oneMerging)%nat).
Proof.
  split; [exact oneMerging_runs|].
  apply (run_counters oneShuffler oneShard oneMerging). exact oneMerging_runs.
Defined.

(** X18.  When [run] is about to open the store of turn [i], there is an
    [i]-th output directory and an [i]-th shard directory: the assertions of
    lines 31 and 32 keep [s.opt.shardOutputDirs[i]] and [shardDirs[i]] in
    range. *)
Theorem run_indices (opt : options) (tmpDir : list mapShard) (s : system)
    (i : nat) :
  runs opt tmpDir s -> main s = Opening i ->
  is_Some (shardOutputDirs opt !! i) /\
  exists dirs, (prepare opt tmpDir).2 = Prepared dirs /\ is_Some (dirs !! i).
Proof.
  intros Hruns Hm. pose proof (runs_sound _ _ _ Hruns) as [_ _ _ Hg _].
  destruct Hruns as ([dirs Hd] & _ & _).
  destruct (prepared_lengths opt tmpDir dirs Hd) as [Hl Ho].
  unfold progress in Hg. rewrite Hm in Hg. destruct Hg as [_ Hi].
  split; [apply lookup_lt_is_Some; lia|].
  exists dirs. split; [done|]. apply lookup_lt_is_Some. lia.
Qed.

Lemma run_indices_witness :
  (runs oneShuffler oneShard oneOpening /\ main oneOpening = Opening 0) /\
  is_Some (shardOutputDirs oneShuffler !! 0%nat) /\
  exists dirs, (prepare oneShuffler oneShard).2 = Prepared dirs /\
    is_Some (dirs !! 0%nat).
Proof.
  split; [split; [exact oneOpening_runs | done]|].
  apply (run_indices oneShuffler oneShard oneOpening 0);
    [exact oneOpening_runs | done].
Defined.

(** * The map files of a reduce shard *)

Lemma tree_nested_ind (P : tree -> Prop) :
  P File -> P Unreadable ->
  (forall names, Forall (fun e => P e.2) names -> P (Dir names)) ->
  forall t, P t.
Proof.
  intros HF HU HD. fix IH 1. intros [|names|]; [done| |done].
  apply HD. induction names as [|[name t] names IHn]; constructor.
  - apply IH.
  - apply IHn.
Qed.

Lemma walk_walked Join t : forall path, walked Join path t.
Proof.
  induction t as [| |names IH] using tree_nested_ind; intros path fnames.
  - by exists [path].
  - exists []. split; [by rewrite app_nil_r|]. done.
  - cbn [walk allReadable files]. revert fnames.
    induction IH as [|[name t] names Ht _ IHn]; intros fnames.
    + exists []. split; [by rewrite app_nil_r|]. done.
    + simpl in Ht. destruct (Ht (Join path name) fnames)
        as (found & E1 & Hok & Hlen).
      destruct (walk Join (Join path name) t fnames) as [fnames' [[]| |]] eqn:E;
        simpl in E1, Hok, Hlen; subst fnames'.
      * destruct (IHn (fnames ++ found)) as (found' & E1' & Hok' & Hlen').
        exists (found ++ found'). split; [by rewrite E1', app_assoc|].
        assert (allReadable t = true) as -> by (by apply Hok).
        split; [done|]. intros Hr.
        rewrite length_app, (Hlen eq_refl), (Hlen' Hr). done.
      * exists found. split; [done|].
        assert (allReadable t = false) as ->.
        { destruct (allReadable t); [|done]. by destruct Hok as [_ Hok];
            specialize (Hok eq_refl). }
        done.
      * exists found. split; [done|].
        assert (allReadable t = false) as ->.
        { destruct (allReadable t); [|done]. by destruct Hok as [_ Hok];
            specialize (Hok eq_refl). }
        done.
Qed.

(** X20.  Whatever path [filepath.Join] makes of a path and a name,
    [filenamesInTree] is fatal just when [os.Lstat] or [readDirNames] fails
    somewhere in the tree; otherwise it returns one name for every entry of
    the tree that is not a directory. *)
Theorem filenamesInTree_names (Join : string -> string -> string)
    (dir : string) (t : tree) :
  ((filenamesInTree Join dir t).2 = Ok tt <-> allReadable t = true) /\
  ((filenamesInTree Join dir t).2 = Ok tt ->
   length (filenamesInTree Join dir t).1 = files t).
Proof.
  unfold filenamesInTree.
  destruct (walk_walked Join t dir []) as (found & E & Hok & Hlen).
  simpl in E. rewrite E. split; [done|]. done.
Qed.

(** ** From the map files to the batches *)

Lemma shuffleInputChs_long Unmarshal (files : list (list (list byte))) recs :
  Forall (Forall (fun body => (9 <= length body)%nat /\
                              Z.of_nat (length body) < 2 ^ 63)) files ->
  Forall2 (Forall2 (fun body me => Unmarshal body = Some me)) files recs ->
  shuffleInputChs Unmarshal (mapFile <$> files) = recs /\
  Forall (fun mapFile => closed (readMapOutput Unmarshal mapFile) = Ok tt)
    (mapFile <$> files).
Proof.
  intros Hb HU. unfold shuffleInputChs.
  induction HU as [|bodies rs files recs Hrs HU IH]; [done|].
  inversion Hb as [|? ? Hb1 Hb']; subst. destruct (IH Hb') as [IH1 IH2].
  rewrite !fmap_cons.
  assert (readMapOutput Unmarshal (mapFile bodies) =
          {| delivered := rs; closed := Ok tt |}) as E.
  { rewrite (readMapOutput_mapFile Unmarshal bodies rs); [| |done].
    - rewrite readable_long.
      + by rewrite (Forall2_length _ _ _ Hrs), firstn_all.
      + eapply Forall_impl; [exact Hb1|]. by intros b [? _].
    - eapply Forall_impl; [exact Hb1|]. by intros b [_ ?]. }
  split.
  - rewrite E. simpl. by f_equal.
  - constructor; [by rewrite E | done].
Qed.

(** X21.  Map files whose records are serialized in nine bytes or more each,
    none of them without a record, each in key order: every [readMapOutput]
    closes its channel, and [shufflePostings] on these channels returns after
    it sent the records of all files, each once, in key order. *)
Theorem shuffle_map_files (Unmarshal : list byte -> option MapEntry)
    (files : list (list (list byte))) (recs : list (list MapEntry)) :
  Forall (fun bodies => bodies <> []) files ->
  Forall (Forall (fun body => (9 <= length body)%nat /\
                              Z.of_nat (length body) < 2 ^ 63)) files ->
  Forall2 (Forall2 (fun body me => Unmarshal body = Some me)) files recs ->
  Forall nondecreasing recs ->
  Forall (fun mapFile => closed (readMapOutput Unmarshal mapFile) = Ok tt)
    (mapFile <$> files) /\
  exit (shufflePostings (shuffleInputChs Unmarshal (mapFile <$> files)))
    = Ok tt /\
  concat (sent (shufflePostings (shuffleInputChs Unmarshal (mapFile <$> files))))
    ≡ₚ concat recs /\
  nondecreasing
    (concat (sent (shufflePostings (shuffleInputChs Unmarshal (mapFile <$> files))))).
Proof.
  intros Hne Hb HU Hs%nondecreasing_streams.
  destruct (shuffleInputChs_long Unmarshal files recs Hb HU) as [-> Hc].
  split; [done|]. unfold shufflePostings.
  assert (Forall (fun c : list MapEntry => c <> []) recs) as F.
  { clear Hb Hs Hc. induction HU as [|bodies rs files recs Hrs HU IH]; [done|].
    inversion Hne as [|? ? Hn Hne']; subst. constructor; [|by apply IH].
    intros ->. apply Forall2_nil_inv_r in Hrs. done. }
  destruct (shuffle_merges batchSize recs F) as (merged & -> & P & Sr).
  destruct (merged_batches batchSize merged) as [Hall _ _ _]; [done|].
  rewrite Hall. split; [done|]. split; [done|].
  by apply nondecreasing_sorted, Sr.
Qed.

Lemma shuffle_map_files_witness :
  exit (shufflePostings (shuffleInputChs (fun body => Some {| Key := body; Payload := [] |})
    (mapFile <$> [ [[x61; x62; x63; x64; x65; x66; x67; x68; x69]];
                   [[x61; x61; x63; x64; x65; x66; x67; x68; x69]] ])))
  = Ok tt.
Proof.
  apply (shuffle_map_files (fun body => Some {| Key := body; Payload := [] |})
           [ [[x61; x62; x63; x64; x65; x66; x67; x68; x69]];
             [[x61; x61; x63; x64; x65; x66; x67; x68; x69]] ]
           [ [ {| Key := [x61; x62; x63; x64; x65; x66; x67; x68; x69];
                  Payload := [] |} ];
             [ {| Key := [x61; x61; x63; x64; x65; x66; x67; x68; x69];
                  Payload := [] |} ] ]).
  - by repeat constructor.
  - repeat constructor; simpl; lia.
  - by repeat constructor.
  - repeat constructor; apply nondecreasing_sorted; repeat constructor.
Defined.
